(** * E2E-House-Pricing-Predictor: ingestion and missing-value handling

    A shallow embedding of [src/ingest_data.py], [src/handle_missing_values.py]
    and [steps/handle_missing_values_step.py], together with a model of the
    pandas operations these files call ([dropna], [fillna], [select_dtypes],
    [mean], [median], [mode]) as pandas 2.x defines them, and of the part of
    the file system that [zipfile] and [os.listdir] work on.

    Conventions of the model:
    - a float64 cell is an exact rational ([Q]); [None] is NaN, the missing
      marker.  Rounding, infinities and overflow of IEEE arithmetic are not
      represented;
    - column labels are strings, row labels are naturals; column labels are
      unique in a well-formed dataset, and the label-keyed pandas operations
      are modelled for that case;
    - Python exceptions are values of [exn]; the [logging] module is a list of
      emitted records. *)

From Stdlib Require Import List String Ascii Bool Arith ZArith QArith Qreduction Lia.
From Stdlib Require DecimalString.
Import ListNotations.
Local Open Scope string_scope.
Local Open Scope list_scope.
Local Open Scope nat_scope.

(** ** Exceptions, log records and the effect monad *)

Inductive exn : Type :=
| ValueError (msg : string)
| TypeError (msg : string)
| KeyError (msg : string)
| IndexError (msg : string)
| FileNotFoundError (msg : string)
| BadZipFile (msg : string)
| NotADirectoryError (path : string)
| IsADirectoryError (path : string)
| FileExistsError (path : string).

Inductive level : Type := INFO | WARNING.

Definition record : Type := (level * string)%type.

(** A computation emits log records and either raises or returns. *)
Definition M (A : Type) : Type := (list record * (exn + A))%type.

Definition ret {A} (a : A) : M A := ([], inr a).

Definition raise {A} (e : exn) : M A := ([], inl e).

Definition bind {A B} (m : M A) (f : A -> M B) : M B :=
  match m with
  | (l, inl e) => (l, inl e)
  | (l, inr a) => let (l', r) := f a in (l ++ l', r)
  end.

Definition logging_info (msg : string) : M unit := ([(INFO, msg)], inr tt).

Definition logging_warning (msg : string) : M unit := ([(WARNING, msg)], inr tt).

(** A pandas call logs nothing: it only returns or raises. *)
Definition lift {A} (r : exn + A) : M A := ([], r).

Notation "x <- c1 ;; c2" := (bind c1 (fun x => c2))
  (at level 61, c1 at next level, right associativity).
Notation "c1 ;; c2" := (bind c1 (fun _ => c2))
  (at level 61, right associativity).

(** Binding inside the pure error type of the pandas layer. *)
Definition ebind {A B} (r : exn + A) (f : A -> exn + B) : exn + B :=
  match r with
  | inl e => inl e
  | inr a => f a
  end.

(** ** The data model: a pandas DataFrame *)

(** A Python object stored in an [object] column or passed as a fill literal. *)
Inductive scalar : Type :=
| Num (q : Q)
| Str (s : string).

(** The values of one column, by dtype: [Number] is a numeric dtype (what
    [select_dtypes(include="number")] selects), [Object] is the dtype of text
    columns and holds Python objects. *)
Inductive values : Type :=
| Number (v : list (option Q))
| Object (v : list (option scalar)).

Record Series : Type := { label : string; data : values }.

Record DataFrame : Type := { index : list nat; columns : list Series }.

Definition cells (v : values) : list (option scalar) :=
  match v with
  | Number v => map (option_map Num) v
  | Object v => v
  end.

Definition notna {A} (c : option A) : bool :=
  match c with Some _ => true | None => false end.

Definition is_number (s : Series) : bool :=
  match data s with Number _ => true | Object _ => false end.

Definition labels (df : DataFrame) : list string := map label (columns df).

(** The invariant of a dataset: every column has one cell per row label and
    column labels are unique. *)
Definition well_formed (df : DataFrame) : Prop :=
  Forall (fun s => List.length (cells (data s)) = List.length (index df)) (columns df)
  /\ NoDup (labels df).

(** Boolean-mask selection [l[mask]]. *)
Fixpoint take {A} (mask : list bool) (l : list A) : list A :=
  match mask, l with
  | b :: mask', x :: l' => if b then x :: take mask' l' else take mask' l'
  | _, _ => []
  end.

Definition values_take (mask : list bool) (v : values) : values :=
  match v with
  | Number v => Number (take mask v)
  | Object v => Object (take mask v)
  end.

Definition series_take (mask : list bool) (s : Series) : Series :=
  {| label := label s; data := values_take mask (data s) |}.

(** The rows of a table given by its row labels and the cells of its columns:
    one entry per row label, carrying that row's cell in every column. *)
Fixpoint rows_of (idx : list nat) (cols : list (list (option scalar)))
  : list (nat * list (option scalar)) :=
  match idx with
  | [] => []
  | i :: idx' => (i, map (hd None) cols) :: rows_of idx' (map (@tl _) cols)
  end.

Definition iterrows (df : DataFrame) : list (nat * list (option scalar)) :=
  rows_of (index df) (map (fun s => cells (data s)) (columns df)).

(** Number of non-missing cells of a row or of a column. *)
Definition notna_count {A} (l : list (option A)) : nat :=
  List.length (filter notna l).

(** [str(n)] for a Python integer. *)
Definition repr_int (z : Z) : string :=
  DecimalString.NilZero.string_of_int (Z.to_int z).

Definition repr_optional_int (z : option Z) : string :=
  match z with Some z => repr_int z | None => "None" end.

(** ** The pandas operations used by the program *)

Module pd.

(** *** [DataFrame.dropna] *)

(** The mask of [dropna] over the rows (or the columns), [count >= thresh]:
    a line is kept when its count of non-missing cells is at least [thresh].
    The program always passes [thresh] explicitly, so [dropna] never falls
    back to [how="any"]: for [thresh=None] it still compares, and
    [count >= None] is False for every line. *)
Definition keep_mask (thresh : option Z) (lines : list (list (option scalar)))
  : list bool :=
  match thresh with
  | Some t => map (fun l => (t <=? Z.of_nat (notna_count l))%Z) lines
  | None => map (fun _ => false) lines
  end.

(** [df.dropna(axis=axis, thresh=thresh)]. Axis 0 drops rows, axis 1 drops
    columns; any other axis number is refused. *)
Definition dropna (axis : Z) (thresh : option Z) (df : DataFrame)
  : exn + DataFrame :=
  if (axis =? 0)%Z then
    let mask := keep_mask thresh (map snd (iterrows df)) in
    inr {| index := take mask (index df);
           columns := map (series_take mask) (columns df) |}
  else if (axis =? 1)%Z then
    let mask := keep_mask thresh (map (fun s => cells (data s)) (columns df)) in
    inr {| index := index df; columns := take mask (columns df) |}
  else
    inl (ValueError ("No axis named " ++ repr_int axis ++ " for object type DataFrame")).

(** *** Column access *)

Definition has_label (key : string) (s : Series) : bool := String.eqb (label s) key.

(** [df[key]] for one label. *)
Definition getitem (df : DataFrame) (key : string) : exn + Series :=
  match find (has_label key) (columns df) with
  | Some s => inr s
  | None => inl (KeyError key)
  end.

Fixpoint getitem_columns (df : DataFrame) (keys : list string) : exn + list Series :=
  match keys with
  | [] => inr []
  | k :: keys' =>
      ebind (getitem df k) (fun s =>
      ebind (getitem_columns df keys') (fun r => inr (s :: r)))
  end.

(** [df[keys]] for a list of labels: the sub-frame of these columns. *)
Definition getitem_list (df : DataFrame) (keys : list string) : exn + DataFrame :=
  ebind (getitem_columns df keys) (fun cs =>
  inr {| index := index df; columns := cs |}).

(** [df[key] = v]: overwrite the column labelled [key] where it stands, or
    append a new column. *)
Definition setitem (df : DataFrame) (key : string) (v : values) : DataFrame :=
  if existsb (has_label key) (columns df) then
    {| index := index df;
       columns := map (fun s => if has_label key s
                                then {| label := key; data := v |} else s)
                      (columns df) |}
  else
    {| index := index df;
       columns := columns df ++ [{| label := key; data := v |}] |}.

(** [df[keys] = value] with a DataFrame on the right:
    [for k1, k2 in zip(keys, value.columns): df[k1] = value[k2]]. *)
Definition setitem_list (df : DataFrame) (keys : list string) (value : DataFrame)
  : exn + DataFrame :=
  if (List.length keys =? List.length (columns value))%nat then
    inr (fold_left (fun acc kv => setitem acc (fst kv) (data (snd kv)))
                   (combine keys (columns value)) df)
  else inl (ValueError "Columns must be same length as key").

(** [df.select_dtypes(include="number").columns] *)
Definition select_dtypes_number (df : DataFrame) : list string :=
  map label (filter is_number (columns df)).

(** *** Statistics *)

(** The non-missing cells, in order ([Series.dropna()]). *)
Fixpoint present {A} (l : list (option A)) : list A :=
  match l with
  | [] => []
  | Some x :: l' => x :: present l'
  | None :: l' => present l'
  end.

Definition Qsum (l : list Q) : Q := fold_right Qplus 0%Q l.

(** [Series.mean()]: the mean of the non-missing cells, NaN when there is none.
    This is the exact mean of the cells read as rationals. pandas computes it
    in float64: its value can differ from this one by rounding, becomes
    infinite on overflow, and is NaN for a column holding both infinities.
    The properties below use the value only through equations on [mean]
    itself, or for whether it is NaN on a column without any value. *)
Definition mean (v : list (option Q)) : option Q :=
  match present v with
  | [] => None
  | p => Some (Qred (Qsum p / inject_Z (Z.of_nat (List.length p))))
  end.

Section Sorting.
Context {A : Type} (leb : A -> A -> bool).

Fixpoint insert (x : A) (l : list A) : list A :=
  match l with
  | [] => [x]
  | y :: l' => if leb x y then x :: y :: l' else y :: insert x l'
  end.

Fixpoint sort (l : list A) : list A :=
  match l with
  | [] => []
  | x :: l' => insert x (sort l')
  end.
End Sorting.

(** [Series.median()]: the middle of the sorted non-missing cells, the mean of
    the two middle ones when their number is even, NaN when there is none. *)
Definition median (v : list (option Q)) : option Q :=
  let p := sort Qle_bool (present v) in
  let n := List.length p in
  if (n =? 0)%nat then None
  else if Nat.odd n then Some (nth (n / 2) p 0%Q)
  else Some (Qred ((nth (n / 2 - 1) p 0%Q + nth (n / 2) p 0%Q) / 2)).

(** [df.mean()] or [df.median()]: one statistic per column, keyed by label.
    A text column cannot be reduced. *)
Fixpoint reduce (stat : list (option Q) -> option Q) (cols : list Series)
  : exn + list (string * option Q) :=
  match cols with
  | [] => inr []
  | s :: cols' =>
      match data s with
      | Number v =>
          ebind (reduce stat cols') (fun r => inr ((label s, stat v) :: r))
      | Object _ => inl (TypeError "Could not convert to numeric")
      end
  end.

Section Mode.
Context {A : Type} (eqb : A -> A -> bool).

Definition count_of (x : A) (l : list A) : nat :=
  List.length (filter (eqb x) l).

Definition max_count (l : list A) : nat :=
  fold_right Nat.max 0 (map (fun x => count_of x l) l).

(** Distinct values in order of first appearance. *)
Fixpoint unique (l : list A) : list A :=
  match l with
  | [] => []
  | x :: l' => x :: filter (fun y => negb (eqb x y)) (unique l')
  end.

(** All values reaching the highest frequency. *)
Definition modes (l : list A) : list A :=
  filter (fun x => (count_of x l =? max_count l)%nat) (unique l).
End Mode.

Definition scalar_eqb (x y : scalar) : bool :=
  match x, y with
  | Num a, Num b => Qeq_bool a b
  | Str a, Str b => String.eqb a b
  | _, _ => false
  end.

Definition scalar_leb (x y : scalar) : bool :=
  match x, y with
  | Num a, Num b => Qle_bool a b
  | Str a, Str b => String.leb a b
  | _, _ => false
  end.

Definition is_num (x : scalar) : bool :=
  match x with Num _ => true | Str _ => false end.

(** [Series.mode()]: the most frequent non-missing values, sorted ascending;
    modes of mixed Python types cannot be compared and stay in order of
    appearance. *)
Definition mode (d : values) : list scalar :=
  match d with
  | Number v => map Num (sort Qle_bool (modes Qeq_bool (present v)))
  | Object v =>
      let m := modes scalar_eqb (present v) in
      if forallb is_num m || forallb (fun x => negb (is_num x)) m
      then sort scalar_leb m else m
  end.

(** [s.iloc[0]] *)
Definition iloc0 {A} (l : list A) : exn + A :=
  match l with
  | [] => inl (IndexError "single positional indexer is out-of-bounds")
  | x :: _ => inr x
  end.

(** *** [fillna] *)

Definition fill {A} (v : option A) (c : option A) : option A :=
  match c with Some x => Some x | None => v end.

(** [Series.fillna(v)] on the values of a column; [v = None] is a NaN fill
    value, which fills nothing. A text literal written into a numeric column
    turns it into an [object] column. An [object] column stays one here:
    pandas 2.x may infer a numeric dtype for an [object] column that holds
    only numbers after the fill, with the same cells. *)
Definition fillna_values (v : option scalar) (d : values) : values :=
  match d, v with
  | Number c, None => Number c
  | Number c, Some (Num q) => Number (map (fill (Some q)) c)
  | Number c, Some (Str s) =>
      if forallb notna c then Number c
      else Object (map (fill (Some (Str s))) (map (option_map Num) c))
  | Object c, _ => Object (map (fill v) c)
  end.

(** [df.fillna(value)] with a Series of fill values keyed by column label:
    every key that is a column of [df] has that column filled. *)
Definition fillna_series (df : DataFrame) (value : list (string * option Q))
  : DataFrame :=
  fold_left (fun acc kv =>
               match getitem acc (fst kv) with
               | inr s => setitem acc (fst kv)
                            (fillna_values (option_map Num (snd kv)) (data s))
               | inl _ => acc
               end)
            value df.

(** [df.fillna(value)] with one Python value for every column; [value=None]
    is refused. *)
Definition fillna (df : DataFrame) (value : option scalar) : exn + DataFrame :=
  match value with
  | None => inl (ValueError "Must specify a fill 'value' or 'method'.")
  | Some x =>
      inr {| index := index df;
             columns := map (fun s => {| label := label s;
                                         data := fillna_values (Some x) (data s) |})
                            (columns df) |}
  end.

End pd.

(** ** [src/handle_missing_values.py] *)

Module DropMissingValuesStrategy.

Record t : Type := { axis : Z; threshold : option Z }.

(** [__init__(self, axis=0, threshold=None)] *)
Definition init (axis : option Z) (threshold : option Z) : t :=
  {| axis := match axis with Some a => a | None => 0%Z end;
     threshold := threshold |}.

Definition handle (self : t) (df : DataFrame) : M DataFrame :=
  logging_info ("Dropping missing values with axis=" ++ repr_int (axis self)
                ++ " and threshold=" ++ repr_optional_int (threshold self)) ;;
  df_cleaned <- lift (pd.dropna (axis self) (threshold self) df) ;;
  logging_info "Missing values dropped." ;;
  ret df_cleaned.

End DropMissingValuesStrategy.

Module FillMissingValuesStrategy.

Record t : Type := { method : string; fill_value : option scalar }.

(** [__init__(self, method="mean", fill_value=None)] *)
Definition init (method : option string) (fill_value : option scalar) : t :=
  {| method := match method with Some m => m | None => "mean" end;
     fill_value := fill_value |}.

(** The body shared by the "mean" and "median" branches:
    [numerical_cols = df_cleaned.select_dtypes(include="number").columns]
    [df_cleaned[numerical_cols] =
       df_cleaned[numerical_cols].fillna(df[numerical_cols].<stat>())] *)
Definition fill_numerical (stat : list (option Q) -> option Q)
           (df df_cleaned : DataFrame) : exn + DataFrame :=
  let numerical_cols := pd.select_dtypes_number df_cleaned in
  ebind (pd.getitem_list df_cleaned numerical_cols) (fun target =>
  ebind (pd.getitem_list df numerical_cols) (fun source =>
  ebind (pd.reduce stat (columns source)) (fun value =>
  pd.setitem_list df_cleaned numerical_cols (pd.fillna_series target value)))).

(** The loop of the "mode" branch:
    [for col in df_cleaned.columns:
         df_cleaned[col].fillna(df[col].mode().iloc[0], inplace=True)]
    The in-place fill of the selected column writes through to [df_cleaned]. *)
Fixpoint fill_mode (df : DataFrame) (cols : list string) (df_cleaned : DataFrame)
  : exn + DataFrame :=
  match cols with
  | [] => inr df_cleaned
  | col :: cols' =>
      ebind (pd.getitem df_cleaned col) (fun target =>
      ebind (pd.getitem df col) (fun source =>
      ebind (pd.iloc0 (pd.mode (data source))) (fun m =>
      fill_mode df cols'
        (pd.setitem df_cleaned col (pd.fillna_values (Some m) (data target))))))
  end.

(** [df_cleaned = df.copy()] is the value [df] itself: values are immutable
    here, so [df] is never changed through [df_cleaned]. *)
Definition handle (self : t) (df : DataFrame) : M DataFrame :=
  logging_info ("Filling missing values using method: " ++ method self) ;;
  let df_cleaned := df in
  df_cleaned <-
    (if String.eqb (method self) "mean" then
       lift (fill_numerical pd.mean df df_cleaned)
     else if String.eqb (method self) "median" then
       lift (fill_numerical pd.median df df_cleaned)
     else if String.eqb (method self) "mode" then
       lift (fill_mode df (labels df_cleaned) df_cleaned)
     else if String.eqb (method self) "constant" then
       lift (pd.fillna df_cleaned (fill_value self))
     else
       logging_warning ("'" ++ method self
                        ++ "' is an unknown method... No missing values handled.") ;;
       ret df_cleaned) ;;
  logging_info "Missing values filled." ;;
  ret df_cleaned.

End FillMissingValuesStrategy.

(** The abstract class [MissingValueHandlingStrategy] has two concrete
    subclasses. *)
Inductive MissingValueHandlingStrategy : Type :=
| Drop (s : DropMissingValuesStrategy.t)
| Fill (s : FillMissingValuesStrategy.t).

Definition handle (strategy : MissingValueHandlingStrategy) (df : DataFrame)
  : M DataFrame :=
  match strategy with
  | Drop s => DropMissingValuesStrategy.handle s df
  | Fill s => FillMissingValuesStrategy.handle s df
  end.

Module MissingValueHandler.

Record t : Type := { _strategy : MissingValueHandlingStrategy }.

Definition init (strategy : MissingValueHandlingStrategy) : t :=
  {| _strategy := strategy |}.

Definition set_strategy (self : t) (strategy : MissingValueHandlingStrategy)
  : M t :=
  logging_info "Switching to a new missing value handling strategy." ;;
  ret {| _strategy := strategy |}.

Definition handle_missing_values (self : t) (df : DataFrame) : M DataFrame :=
  logging_info "Executing the current missing value handling strategy." ;;
  handle (_strategy self) df.

End MissingValueHandler.

(** ** [steps/handle_missing_values_step.py] *)

Definition unsupported_strategy (strategy : string) : exn :=
  ValueError ("The provided missing value handling strategy is unsupported/unknown: "
              ++ strategy).

Definition handle_missing_values_step (df : DataFrame) (strategy : string)
  : M DataFrame :=
  mv_handler <-
    (if String.eqb strategy "drop" then
       ret (MissingValueHandler.init
              (Drop (DropMissingValuesStrategy.init (Some 0%Z) None)))
     else if existsb (String.eqb strategy) ["mean"; "median"; "mode"; "constant"] then
       ret (MissingValueHandler.init
              (Fill (FillMissingValuesStrategy.init (Some strategy) None)))
     else raise (unsupported_strategy strategy)) ;;
  df_cleaned <- MissingValueHandler.handle_missing_values mv_handler df ;;
  ret df_cleaned.

(** ** [src/ingest_data.py] *)

(** [s.endswith(suffix)] *)
Definition endswith (s suffix : string) : bool :=
  (String.length suffix <=? String.length s)
  && String.eqb (substring (String.length s - String.length suffix)
                           (String.length suffix) s) suffix.

(** An entry below the staging directory "extracted_data". *)
Inductive kind : Type :=
| RegularFile (content : string)
| Directory.

(** The tree below "extracted_data": a table from relative paths, given by
    their components, to entries. *)
Definition tree : Type := list (list string * kind).

(** A member of an archive, as [zipfile] extracts it: the directories of its
    name, the last component of its name, and its content. A directory member
    has no content. *)
Record member : Type := {
  arcdirs : list string;
  arcname : string;
  content : option string
}.

(** The part of the file system the ingestor touches: what is found at the
    paths it may be asked to open (a zip archive with its members, or a file
    that is no archive), and the staging directory "extracted_data", which
    may not exist. *)
Record FileSystem : Type := {
  archives : list (string * option (list member));
  extracted_data : option tree
}.

(** [zipfile.ZipFile(file_path, "r")] *)
Definition ZipFile (fs : FileSystem) (file_path : string) : exn + list member :=
  match find (fun a => String.eqb (fst a) file_path) (archives fs) with
  | Some (_, Some zip_ref) => inr zip_ref
  | Some (_, None) => inl (BadZipFile "File is not a zip file")
  | None => inl (FileNotFoundError
                   ("[Errno 2] No such file or directory: '" ++ file_path ++ "'"))
  end.

Fixpoint path_eqb (p q : list string) : bool :=
  match p, q with
  | [], [] => true
  | a :: p', b :: q' => String.eqb a b && path_eqb p' q'
  | _, _ => false
  end.

(** The entry found at a relative path, if any. *)
Definition lookup (p : list string) (t : tree) : option kind :=
  option_map snd (find (fun e => path_eqb (fst e) p) t).

(** The path below the staging directory, as the operating system names it. *)
Definition staged (p : list string) : string :=
  String.concat "/" ("extracted_data" :: p).

(** The steps of an extraction: making a directory unless it is there
    ([os.makedirs] for the parents of a member, [os.mkdir] for a directory
    member), and writing a file ([open(targetpath, "wb")]). Making a
    directory is refused, with the given exception, where a regular file
    stands. Of a refusal the class of the exception is modelled; the path it
    carries is the one of the entry in the way. *)
Inductive op : Type :=
| Mkdir (q : list string) (refused : exn)
| Write (p : list string) (c : string).

(** What a write does to the entry of kind [k] at path [p]. *)
Definition rekind (o : op) (p : list string) (k : kind) : kind :=
  match o with
  | Write p' c => if path_eqb p p' then RegularFile c else k
  | Mkdir _ _ => k
  end.

Definition replay (o : op) (e : list string * kind) : list string * kind :=
  (fst e, rekind o (fst e) (snd e)).

Definition apply_op (t : tree) (o : op) : exn + tree :=
  match o with
  | Mkdir q refused =>
      match lookup q t with
      | Some Directory => inr t
      | Some (RegularFile _) => inl refused
      | None => inr (t ++ [(q, Directory)])
      end
  | Write p c =>
      match lookup p t with
      | Some Directory => inl (IsADirectoryError (staged p))
      | Some (RegularFile _) => inr (map (replay o) t)
      | None => inr (t ++ [(p, RegularFile c)])
      end
  end.

(** The non-empty prefixes of a list of directories, shortest first. *)
Fixpoint prefixes (dirs : list string) : list (list string) :=
  match dirs with
  | [] => []
  | d :: dirs' => [d] :: map (cons d) (prefixes dirs')
  end.

(** [ZipFile._extract_member]: the parent directories are made, then the
    member itself is made (a directory) or written (a file). *)
Definition ops_of (m : member) : list op :=
  map (fun q => Mkdir q (NotADirectoryError (staged q))) (prefixes (arcdirs m))
  ++ [ match content m with
       | Some c => Write (arcdirs m ++ [arcname m]) c
       | None => Mkdir (arcdirs m ++ [arcname m])
                       (FileExistsError (staged (arcdirs m ++ [arcname m])))
       end ].

(** The steps are taken in order; the first refused step raises and leaves
    what the earlier steps did. *)
Fixpoint run_ops (ops : list op) (t : tree) : tree * (exn + unit) :=
  match ops with
  | [] => (t, inr tt)
  | o :: ops' =>
      match apply_op t o with
      | inl e => (t, inl e)
      | inr t' => run_ops ops' t'
      end
  end.

(** [zip_ref.extractall("extracted_data")]: every member in turn. The staging
    directory is made with the first member; an archive without members
    leaves the file system as it is. *)
Definition extractall (zip_ref : list member) (fs : FileSystem)
  : FileSystem * (exn + unit) :=
  match zip_ref with
  | [] => (fs, inr tt)
  | _ :: _ =>
      let (t, r) := run_ops (flat_map ops_of zip_ref)
                            (match extracted_data fs with
                             | Some t => t
                             | None => []
                             end) in
      ({| archives := archives fs; extracted_data := Some t |}, r)
  end.

(** The names directly below the staging directory: the first components of
    the paths of its tree, each once. *)
Definition top_level (t : tree) : list string :=
  pd.unique String.eqb
    (flat_map (fun e => match fst e with [] => [] | d :: _ => [d] end) t).

(** [os.listdir("extracted_data")] *)
Definition listdir (fs : FileSystem) : exn + list string :=
  match extracted_data fs with
  | Some t => inr (top_level t)
  | None => inl (FileNotFoundError
                   "[Errno 2] No such file or directory: 'extracted_data'")
  end.

(** [os.path.join("extracted_data", name)] *)
Definition path_join (dir name : string) : string := dir ++ "/" ++ name.

(** The abstract class [DataIngestor] has one concrete subclass. *)
Inductive DataIngestor : Type := ZipDataIngestor.

Module DataIngestorFactory.

Definition get_data_ingestor (file_extension : string) : exn + DataIngestor :=
  if String.eqb file_extension ".zip" then inr ZipDataIngestor
  else inl (ValueError ("No ingestor available for file extension: "
                        ++ file_extension)).

End DataIngestorFactory.

Section Ingestion.

(** [pd.read_csv(path)]: the parser of the tabular text format, with its
    inference of column kinds, is taken as given. *)
Variable read_csv : FileSystem -> string -> exn + DataFrame.

Definition ZipDataIngestor_ingest (fs : FileSystem) (file_path : string)
  : FileSystem * (exn + DataFrame) :=
  if negb (endswith file_path ".zip") then
    (fs, inl (ValueError "The provided file is not a .zip file."))
  else
    match ZipFile fs file_path with
    | inl e => (fs, inl e)
    | inr zip_ref =>
        match extractall zip_ref fs with
        | (fs', inl e) => (fs', inl e)
        | (fs', inr _) =>
            match listdir fs' with
            | inl e => (fs', inl e)
            | inr extracted_files =>
                let csv_files :=
                  filter (fun f => endswith f ".csv") extracted_files in
                if List.length csv_files =? 0 then
                  (fs', inl (FileNotFoundError
                               "No CSV file found in the extracted data."))
                else if 1 <? List.length csv_files then
                  (fs', inl (ValueError
                     "Multiple CSV files found. Please specify which one to use."))
                else
                  let csv_file_path :=
                    path_join "extracted_data" (nth 0 csv_files "") in
                  (fs', read_csv fs' csv_file_path)
            end
        end
    end.

Definition ingest (ingestor : DataIngestor) (fs : FileSystem) (file_path : string)
  : FileSystem * (exn + DataFrame) :=
  match ingestor with
  | ZipDataIngestor => ZipDataIngestor_ingest fs file_path
  end.

(** [steps/data_ingestion_step.py] *)
Definition data_ingestion_step (fs : FileSystem) (file_path : string)
  : FileSystem * (exn + DataFrame) :=
  let file_extension := ".zip" in
  match DataIngestorFactory.get_data_ingestor file_extension with
  | inl e => (fs, inl e)
  | inr data_ingestor => ingest data_ingestor fs file_path
  end.

End Ingestion.

(** ** Column-wise views of the fill operations *)

(** Updating a column when its label is the key of [kv], by [G]. *)
Definition upd {V : Type} (G : string * V -> Series -> Series)
           (kv : string * V) (s : Series) : Series :=
  if pd.has_label (fst kv) s then G kv s else s.

(** The column update made by [df.fillna(value)] for one entry of [value]. *)
Definition fill_entry (kv : string * option Q) (s : Series) : Series :=
  {| label := label s;
     data := pd.fillna_values (option_map Num (snd kv)) (data s) |}.

(** The column update made by [df[k1] = value[k2]]. *)
Definition assign_entry (kv : string * Series) (_ : Series) : Series :=
  {| label := fst kv; data := data (snd kv) |}.

(** The cells of a numeric column. *)
Definition numbers (s : Series) : list (option Q) :=
  match data s with Number v => v | Object _ => [] end.

(** What a statistic fill does to one column: a numeric column has each
    missing cell replaced by the statistic of the column, a text column is
    returned as it is. *)
Definition fill_column (stat : list (option Q) -> option Q) (s : Series) : Series :=
  match data s with
  | Number v => {| label := label s; data := Number (map (pd.fill (stat v)) v) |}
  | Object _ => s
  end.

(** What the loop of the "mode" branch does to one column whose mode exists:
    the missing cells receive the first of the column's modes. *)
Definition fill_mode_column (s : Series) : Series :=
  match pd.mode (data s) with
  | m :: _ => {| label := label s; data := pd.fillna_values (Some m) (data s) |}
  | [] => s
  end.

(** ** Sample data *)

(** Three rows of a housing table: a numeric column with a gap, a text column
    with gaps, and a numeric column without any value. *)
Definition housing_sample : DataFrame :=
  {| index := [0; 1; 2];
     columns := [ {| label := "LotArea"; data := Number [Some 1%Q; None; Some 3%Q] |};
                  {| label := "Alley";
                     data := Object [None; Some (Str "Pave"); None] |};
                  {| label := "PoolArea"; data := Number [None; None; None] |} ] |}.

(** The same table without its empty column. *)
Definition housing_sample_no_empty_column : DataFrame :=
  {| index := [0; 1; 2];
     columns := [ {| label := "LotArea"; data := Number [Some 1%Q; None; Some 3%Q] |};
                  {| label := "Alley";
                     data := Object [None; Some (Str "Pave"); None] |} ] |}.

(** An archive holding one CSV file at its top level. *)
Definition ames_archive : list member :=
  [ {| arcdirs := []; arcname := "AmesHousing.csv";
       content := Some "LotArea,Alley" |} ].

(** A file system with that archive, nothing extracted yet: the staging
    directory does not exist. *)
Definition archive_sample : FileSystem :=
  {| archives := [("data/archive.zip", Some ames_archive)];
     extracted_data := None |}.

(** The same archive next to a staging directory that still holds a CSV file
    of an earlier run. *)
Definition archive_sample_stale : FileSystem :=
  {| archives := [("data/archive.zip", Some ames_archive)];
     extracted_data := Some [(["train.csv"], RegularFile "Id,SalePrice")] |}.

(** Three rows of a housing table without any gap. *)
Definition housing_sample_complete : DataFrame :=
  {| index := [0; 1; 2];
     columns := [ {| label := "LotArea";
                     data := Number [Some 1%Q; Some 2%Q; Some 3%Q] |};
                  {| label := "Alley";
                     data := Object [Some (Str "Pave"); Some (Str "Grvl");
                                     Some (Str "Pave")] |} ] |}.

(** ** [analysis/implementations/missing_values_analysis.py] *)

(** [df.isnull().sum()]: per column, the number of missing cells. *)
Definition isnull_sum (df : DataFrame) : list (string * nat) :=
  map (fun s => (label s,
                 List.length (filter (fun c => negb (notna c)) (cells (data s)))))
      (columns df).

(** What [print] receives: a text, or a Series of counts keyed by column
    label. The rendering of a Series as text is not modelled. *)
Inductive printed : Type :=
| Text (s : string)
| Counts (v : list (string * nat)).

Module SimpleMissingValuesAnalysis.

(** [missing_values = df.isnull().sum()]
    [print(missing_values[missing_values > 0])] *)
Definition identify_missing_values (df : DataFrame) : list printed :=
  let missing_values := isnull_sum df in
  [ Text (String "010"%char "Counts of Missing Values by Column:");
    Counts (filter (fun kv => 0 <? snd kv) missing_values) ].

End SimpleMissingValuesAnalysis.

(** ** Predicates used in the statements *)

(** The test [dropna] applies to one row or one column. *)
Definition kept (thresh : option Z) (line : list (option scalar)) : bool :=
  match thresh with
  | Some t => (t <=? Z.of_nat (notna_count line))%Z
  | None => false
  end.

(** No cell of the dataset is missing. *)
Definition complete (df : DataFrame) : Prop :=
  forall s, In s (columns df) -> forallb notna (cells (data s)) = true.

(** What a completed fill does to one column, by method. *)
Definition filled_column (method : string) (fill_value : option scalar)
           (s : Series) : Series :=
  if String.eqb method "mean" then fill_column pd.mean s
  else if String.eqb method "median" then fill_column pd.median s
  else if String.eqb method "mode" then fill_mode_column s
  else if String.eqb method "constant" then
    match fill_value with
    | Some x => {| label := label s; data := pd.fillna_values (Some x) (data s) |}
    | None => s
    end
  else s.

(** The records a completed fill has logged, by method. *)
Definition fill_log (method : string) : list record :=
  (INFO, ("Filling missing values using method: " ++ method)%string)
  :: (if existsb (String.eqb method) ["mean"; "median"; "mode"; "constant"]
      then []
      else [(WARNING, ("'" ++ method
                       ++ "' is an unknown method... No missing values handled.")%string)])
  ++ [(INFO, "Missing values filled.")].

(** The path an operation creates or rewrites. *)
Definition target (o : op) : list string :=
  match o with
  | Mkdir q _ => q
  | Write p _ => p
  end.

(** An operation is settled in a tree that already holds its target with the
    kind the operation leaves there: extraction then only rewrites contents. *)
Definition settled (t : tree) (o : op) : Prop :=
  match o with
  | Mkdir q _ => lookup q t = Some Directory
  | Write p _ => exists c0, lookup p t = Some (RegularFile c0)
  end.

(** What a sequence of operations, all settled, does to one entry. *)
Definition replay_all (ops : list op) (e : list string * kind)
  : list string * kind :=
  fold_left (fun e o => replay o e) ops e.

(** * Properties *)

(** ** Boolean masks and the row view *)

Lemma take_map {A B} (f : A -> B) (mask : list bool) (l : list A) :
  take mask (map f l) = map f (take mask l).
Proof.
  revert l. induction mask as [|b mask IH]; intros [|x l]; simpl; trivial.
  destruct b; simpl; now rewrite IH.
Qed.

Lemma take_map_filter {A} (f : A -> bool) (l : list A) :
  take (map f l) l = filter f l.
Proof.
  induction l as [|x l IH]; simpl; trivial.
  destruct (f x); now rewrite IH.
Qed.

Lemma take_compose_filter {A B} (g : A -> B) (f : B -> bool) (l : list A) :
  take (map f (map g l)) l = filter (fun x => f (g x)) l.
Proof. rewrite map_map. apply take_map_filter. Qed.

(** Selecting rows by a mask commutes with the row view, as long as every
    column is as long as the row index. *)
Lemma rows_of_take mask idx cols :
  Forall (fun c => List.length c = List.length idx) cols ->
  rows_of (take mask idx) (map (take mask) cols) = take mask (rows_of idx cols).
Proof.
  revert idx cols.
  induction mask as [|b mask IH]; intros idx cols Hlen.
  - reflexivity.
  - destruct idx as [|i idx].
    + reflexivity.
    + assert (Htl : Forall (fun c => List.length c = List.length idx)
                           (map (@tl _) cols)).
      { rewrite Forall_map. eapply Forall_impl; [|exact Hlen].
        intros [|x c]; simpl; congruence. }
      assert (Hhd : map (take (b :: mask)) cols
                    = if b
                      then map (fun c => hd None c :: take mask (tl c)) cols
                      else map (fun c => take mask (tl c)) cols).
      { destruct b; apply map_ext_in; intros c Hc;
          rewrite Forall_forall in Hlen; specialize (Hlen c Hc);
          destruct c; simpl in *; congruence. }
      rewrite Hhd. simpl. destruct b; simpl.
      * rewrite !map_map. simpl. f_equal.
        rewrite <- (IH idx (map (@tl _) cols) Htl). now rewrite map_map.
      * rewrite <- (IH idx (map (@tl _) cols) Htl). now rewrite map_map.
Qed.

Lemma cells_values_take mask v : cells (values_take mask v) = take mask (cells v).
Proof. destruct v; simpl; trivial. now rewrite take_map. Qed.

Lemma iterrows_dropna_rows thresh df :
  Forall (fun s => List.length (cells (data s)) = List.length (index df)) (columns df) ->
  let mask := pd.keep_mask thresh (map snd (iterrows df)) in
  iterrows {| index := take mask (index df);
              columns := map (series_take mask) (columns df) |}
  = take mask (iterrows df).
Proof.
  intros Hlen mask. unfold iterrows. simpl.
  rewrite map_map. simpl.
  rewrite (map_ext _ (fun s => take mask (cells (data s))))
    by (intros; apply cells_values_take).
  rewrite <- (map_map (fun s => cells (data s)) (take mask)).
  apply rows_of_take. now rewrite Forall_map.
Qed.

Lemma labels_series_take mask cols :
  map label (map (series_take mask) cols) = map label cols.
Proof. rewrite map_map. reflexivity. Qed.

(** ** The Drop strategy *)

Lemma drop_handle_rows thresh df :
  Forall (fun s => List.length (cells (data s)) = List.length (index df)) (columns df) ->
  exists log df',
    handle (Drop (DropMissingValuesStrategy.init (Some 0%Z) thresh)) df = (log, inr df')
    /\ labels df' = labels df
    /\ iterrows df' = take (pd.keep_mask thresh (map snd (iterrows df))) (iterrows df).
Proof.
  intros Hlen. do 2 eexists. split; [reflexivity|]. split.
  - apply labels_series_take.
  - now apply iterrows_dropna_rows.
Qed.

Lemma drop_handle_columns thresh df :
  exists log df',
    handle (Drop (DropMissingValuesStrategy.init (Some 1%Z) thresh)) df = (log, inr df')
    /\ index df' = index df
    /\ columns df'
       = take (pd.keep_mask thresh (map (fun s => cells (data s)) (columns df)))
              (columns df).
Proof. do 2 eexists. split; [reflexivity|]. split; reflexivity. Qed.

Lemma drop_handle_rows_any thresh df :
  exists log df',
    handle (Drop (DropMissingValuesStrategy.init (Some 0%Z) thresh)) df = (log, inr df')
    /\ index df' = take (pd.keep_mask thresh (map snd (iterrows df))) (index df)
    /\ columns df'
       = map (series_take (pd.keep_mask thresh (map snd (iterrows df)))) (columns df).
Proof. do 2 eexists. split; [reflexivity|]. split; reflexivity. Qed.

(** X18. Drop strategy with a threshold [T] on a well-formed dataset. With
    axis=row the rows of the output are exactly the input rows whose count of
    non-missing cells is at least [T], in their original order (so every
    retained row has count >= T and every removed row has count < T), and the
    column labels are unchanged. With axis=column the same holds for the
    columns, by per-column counts, and the row index is unchanged. *)
Theorem drop_retains_by_threshold (T : Z) (df : DataFrame) :
  well_formed df ->
  (exists log df',
      handle (Drop (DropMissingValuesStrategy.init (Some 0%Z) (Some T))) df
      = (log, inr df')
      /\ labels df' = labels df
      /\ iterrows df'
         = filter (fun r => (T <=? Z.of_nat (notna_count (snd r)))%Z) (iterrows df))
  /\ (exists log df',
      handle (Drop (DropMissingValuesStrategy.init (Some 1%Z) (Some T))) df
      = (log, inr df')
      /\ index df' = index df
      /\ columns df'
         = filter (fun s => (T <=? Z.of_nat (notna_count (cells (data s))))%Z)
                  (columns df)).
Proof.
  intros [Hlen _]. split.
  - destruct (drop_handle_rows (Some T) df Hlen) as (log & df' & H & Hl & Hr).
    exists log, df'. split; [exact H|]. split; [exact Hl|].
    rewrite Hr. unfold pd.keep_mask.
    exact (take_compose_filter snd
             (fun l => (T <=? Z.of_nat (notna_count l))%Z) (iterrows df)).
  - destruct (drop_handle_columns (Some T) df) as (log & df' & H & Hi & Hc).
    exists log, df'. split; [exact H|]. split; [exact Hi|].
    rewrite Hc. unfold pd.keep_mask.
    exact (take_compose_filter (fun s => cells (data s))
             (fun l => (T <=? Z.of_nat (notna_count l))%Z) (columns df)).
Qed.

(** C1, at the failing input. The step builds the Drop strategy with
    [threshold=None] ("Default to dropping rows with missing values") and
    [handle] passes that [None] on as [thresh]. On the three-row dataset
    without any missing cell every row is dropped (axis 0), every column is
    dropped (axis 1), and the step with "drop" returns the table without
    rows, where the specification retains every row that has no missing
    cell. *)
Theorem drop_without_threshold_drops_complete_rows :
  handle (Drop (DropMissingValuesStrategy.init (Some 0%Z) None))
         housing_sample_complete
  = ([(INFO, "Dropping missing values with axis=0 and threshold=None");
      (INFO, "Missing values dropped.")],
     inr {| index := [];
            columns := [ {| label := "LotArea"; data := Number [] |};
                         {| label := "Alley"; data := Object [] |} ] |})
  /\ handle (Drop (DropMissingValuesStrategy.init (Some 1%Z) None))
            housing_sample_complete
     = ([(INFO, "Dropping missing values with axis=1 and threshold=None");
         (INFO, "Missing values dropped.")],
        inr {| index := [0; 1; 2]; columns := [] |})
  /\ handle_missing_values_step housing_sample_complete "drop"
     = ([(INFO, "Executing the current missing value handling strategy.");
         (INFO, "Dropping missing values with axis=0 and threshold=None");
         (INFO, "Missing values dropped.")],
        inr {| index := [];
               columns := [ {| label := "LotArea"; data := Number [] |};
                            {| label := "Alley"; data := Object [] |} ] |}).
Proof. split; [|split]; reflexivity. Qed.

(** ** Column updates keyed by label *)

Lemma label_unique (cols : list Series) (a b : Series) :
  NoDup (map label cols) -> In a cols -> In b cols -> label a = label b -> a = b.
Proof.
  induction cols as [|c cols IH]; simpl; intros Hnd Ha Hb Hab; [contradiction|].
  inversion Hnd as [|? ? Hnotin Hnd']; subst.
  destruct Ha as [<-|Ha], Hb as [<-|Hb]; trivial.
  - exfalso. apply Hnotin. rewrite Hab. now apply in_map.
  - exfalso. apply Hnotin. rewrite <- Hab. now apply in_map.
  - now apply IH.
Qed.

Lemma has_label_true key s : pd.has_label key s = true <-> label s = key.
Proof. unfold pd.has_label. apply String.eqb_eq. Qed.

Lemma has_label_false key s : pd.has_label key s = false <-> label s <> key.
Proof. unfold pd.has_label. apply String.eqb_neq. Qed.

Lemma existsb_has_label key cols :
  existsb (pd.has_label key) cols = true <-> In key (map label cols).
Proof.
  rewrite existsb_exists, in_map_iff. split.
  - intros (s & Hin & H). exists s. split; trivial. now apply has_label_true.
  - intros (s & H & Hin). exists s. split; trivial. now apply has_label_true.
Qed.

Lemma find_has_label cols s :
  NoDup (map label cols) -> In s cols ->
  find (pd.has_label (label s)) cols = Some s.
Proof.
  intros Hnd Hin.
  destruct (find (pd.has_label (label s)) cols) as [s'|] eqn:Hf.
  - apply find_some in Hf. destruct Hf as [Hin' Hl].
    apply has_label_true in Hl. f_equal. eapply label_unique; eauto.
  - apply (find_none _ _ Hf) in Hin.
    apply has_label_false in Hin. congruence.
Qed.

Section KeyedUpdate.
Context {V : Type} (G : string * V -> Series -> Series).
Hypothesis G_label :
  forall kv s, pd.has_label (fst kv) s = true -> label (G kv s) = label s.

Lemma upd_label kv s : label (upd G kv s) = label s.
Proof. unfold upd. destruct (pd.has_label (fst kv) s) eqn:E; auto. Qed.

Lemma map_upd_labels kv cols : map label (map (upd G kv) cols) = map label cols.
Proof. rewrite map_map. apply map_ext. intros; apply upd_label. Qed.

Lemma fold_upd_notin (l : list (string * V)) (s : Series) :
  ~ In (label s) (map fst l) ->
  fold_left (fun s kv => upd G kv s) l s = s.
Proof.
  revert s. induction l as [|kv l IH]; intros s Hnotin; simpl; trivial.
  simpl in Hnotin.
  assert (E : upd G kv s = s).
  { unfold upd. destruct (pd.has_label (fst kv) s) eqn:E; trivial.
    apply has_label_true in E. exfalso. apply Hnotin. now left. }
  rewrite E. apply IH. intros H. apply Hnotin. now right.
Qed.

Lemma fold_upd_in (l : list (string * V)) (kv : string * V) (s : Series) :
  NoDup (map fst l) -> In kv l -> fst kv = label s ->
  fold_left (fun s kv => upd G kv s) l s = G kv s.
Proof.
  revert s. induction l as [|kv' l IH]; intros s Hnd Hin Hk; simpl;
    [contradiction|].
  simpl in Hnd. inversion Hnd as [|? ? Hnotin Hnd']; subst.
  destruct Hin as [->|Hin].
  - assert (E : upd G kv s = G kv s).
    { unfold upd. rewrite (proj2 (has_label_true (fst kv) s)); auto. }
    rewrite E. apply fold_upd_notin.
    rewrite G_label by (apply has_label_true; auto). now rewrite <- Hk.
  - assert (E : upd G kv' s = s).
    { unfold upd. destruct (pd.has_label (fst kv') s) eqn:E; trivial.
      apply has_label_true in E. exfalso. apply Hnotin.
      rewrite <- E, <- Hk. now apply in_map. }
    rewrite E. now apply IH.
Qed.

Lemma fold_map_upd (l : list (string * V)) (cols : list Series) :
  fold_left (fun cols kv => map (upd G kv) cols) l cols
  = map (fun s => fold_left (fun s kv => upd G kv s) l s) cols.
Proof.
  revert cols. induction l as [|kv l IH]; intros cols; simpl.
  - now rewrite map_id.
  - rewrite IH, map_map. reflexivity.
Qed.
End KeyedUpdate.

(** ** The pandas column operations as maps over the columns *)

Lemma fill_entry_label kv s :
  pd.has_label (fst kv) s = true -> label (fill_entry kv s) = label s.
Proof. reflexivity. Qed.

Lemma assign_entry_label kv s :
  pd.has_label (fst kv) s = true -> label (assign_entry kv s) = label s.
Proof. intros H. apply has_label_true in H. simpl. congruence. Qed.

Lemma setitem_present i cols (kv : string * Series) :
  In (fst kv) (map label cols) ->
  pd.setitem {| index := i; columns := cols |} (fst kv) (data (snd kv))
  = {| index := i; columns := map (upd assign_entry kv) cols |}.
Proof.
  intros Hin. unfold pd.setitem. simpl.
  rewrite (proj2 (existsb_has_label _ _) Hin). reflexivity.
Qed.

Lemma setitem_fold i (l : list (string * Series)) cols :
  (forall kv, In kv l -> In (fst kv) (map label cols)) ->
  fold_left (fun acc kv => pd.setitem acc (fst kv) (data (snd kv))) l
            {| index := i; columns := cols |}
  = {| index := i;
       columns := map (fun s => fold_left (fun s kv => upd assign_entry kv s) l s)
                      cols |}.
Proof.
  revert cols. induction l as [|kv l IH]; intros cols Hkeys; simpl.
  - now rewrite map_id.
  - rewrite setitem_present by (apply Hkeys; now left).
    rewrite IH.
    + now rewrite map_map.
    + intros kv' Hin.
      rewrite (map_upd_labels assign_entry assign_entry_label).
      apply Hkeys. now right.
Qed.

Lemma fillna_step i cols (kv : string * option Q) :
  NoDup (map label cols) ->
  match pd.getitem {| index := i; columns := cols |} (fst kv) with
  | inr s => pd.setitem {| index := i; columns := cols |} (fst kv)
               (pd.fillna_values (option_map Num (snd kv)) (data s))
  | inl _ => {| index := i; columns := cols |}
  end
  = {| index := i; columns := map (upd fill_entry kv) cols |}.
Proof.
  intros Hnd. unfold pd.getitem. simpl.
  destruct (find (pd.has_label (fst kv)) cols) as [s|] eqn:Hf.
  - destruct (find_some _ _ Hf) as [Hin Hl].
    unfold pd.setitem. simpl.
    assert (Hex : existsb (pd.has_label (fst kv)) cols = true).
    { apply existsb_exists. eauto. }
    rewrite Hex. f_equal. apply map_ext_in. intros s' Hin'.
    unfold upd. destruct (pd.has_label (fst kv) s') eqn:E; trivial.
    assert (s' = s).
    { eapply label_unique; eauto.
      apply has_label_true in E, Hl. congruence. }
    subst s'. unfold fill_entry. f_equal.
    apply has_label_true in Hl. congruence.
  - f_equal. transitivity (map (fun s : Series => s) cols).
    + now rewrite map_id.
    + apply map_ext_in. intros s' Hin'.
      unfold upd. now rewrite (find_none _ _ Hf s' Hin').
Qed.

Lemma fillna_series_columns i (value : list (string * option Q)) cols :
  NoDup (map label cols) ->
  pd.fillna_series {| index := i; columns := cols |} value
  = {| index := i;
       columns := map (fun s => fold_left (fun s kv => upd fill_entry kv s) value s)
                      cols |}.
Proof.
  unfold pd.fillna_series.
  revert cols. induction value as [|kv value IH]; intros cols Hnd; simpl.
  - now rewrite map_id.
  - rewrite fillna_step by assumption.
    rewrite IH.
    + now rewrite map_map.
    + now rewrite (map_upd_labels fill_entry fill_entry_label).
Qed.

Lemma getitem_columns_sub df (l : list Series) :
  NoDup (labels df) -> incl l (columns df) ->
  pd.getitem_columns df (map label l) = inr l.
Proof.
  intros Hnd. induction l as [|s l IH]; intros Hincl; simpl; trivial.
  unfold pd.getitem.
  rewrite (find_has_label (columns df) s Hnd) by (apply Hincl; now left).
  simpl. rewrite IH; trivial.
  intros x Hx. apply Hincl. now right.
Qed.

Lemma reduce_numeric stat (l : list Series) :
  Forall (fun s => is_number s = true) l ->
  pd.reduce stat l = inr (map (fun s => (label s, stat (numbers s))) l).
Proof.
  induction 1 as [|s l Hs _ IH]; simpl; trivial.
  unfold is_number in Hs. unfold numbers.
  destruct (data s); [|discriminate].
  rewrite IH. reflexivity.
Qed.

(** Selecting columns keeps the labels unique. *)
Lemma NoDup_labels_filter (keep : Series -> bool) (cols : list Series) :
  NoDup (map label cols) -> NoDup (map label (filter keep cols)).
Proof.
  induction cols as [|s cols IH]; simpl; intros Hnd; [constructor|].
  inversion Hnd as [|? ? Hnotin Hnd']; subst.
  destruct (keep s); simpl; auto.
  constructor; auto.
  intros Hin. apply Hnotin.
  apply in_map_iff in Hin. destruct Hin as (y & <- & Hy).
  apply filter_In in Hy. apply in_map. tauto.
Qed.

Lemma fill_none {A} (l : list (option A)) : map (pd.fill None) l = l.
Proof.
  induction l as [|[x|] l IH]; simpl; now rewrite ?IH.
Qed.

Lemma fillna_values_number (o : option Q) (v : list (option Q)) :
  pd.fillna_values (option_map Num o) (Number v) = Number (map (pd.fill o) v).
Proof. destruct o; simpl; trivial. now rewrite fill_none. Qed.

Lemma combine_map_both {A B C} (f : A -> B) (g : A -> C) (l : list A) :
  combine (map f l) (map g l) = map (fun x => (f x, g x)) l.
Proof. induction l as [|x l IH]; simpl; now rewrite ?IH. Qed.

(** The fill values computed for the numeric columns reach exactly the column
    they were computed from. *)
Lemma fold_fill_entry stat (l : list Series) (s : Series) :
  NoDup (map label l) -> In s l -> is_number s = true ->
  fold_left (fun s kv => upd fill_entry kv s)
            (map (fun s => (label s, stat (numbers s))) l) s
  = fill_column stat s.
Proof.
  intros Hnd Hin Hnum.
  rewrite (fold_upd_in fill_entry fill_entry_label _ (label s, stat (numbers s))).
  - unfold fill_entry, fill_column, numbers, is_number in *. simpl.
    destruct (data s); [|discriminate].
    now rewrite fillna_values_number.
  - now rewrite map_map.
  - apply in_map_iff. now exists s.
  - reflexivity.
Qed.

Lemma fill_column_label stat s : label (fill_column stat s) = label s.
Proof. unfold fill_column. now destruct (data s). Qed.

Lemma fold_assign_entry stat (cols : list Series) (s : Series) :
  NoDup (map label cols) -> In s cols ->
  fold_left (fun s kv => upd assign_entry kv s)
            (map (fun s => (label s, fill_column stat s)) (filter is_number cols)) s
  = fill_column stat s.
Proof.
  intros Hnd Hin.
  destruct (is_number s) eqn:Hnum.
  - rewrite (fold_upd_in assign_entry assign_entry_label _
               (label s, fill_column stat s)).
    + unfold assign_entry. simpl.
      rewrite <- (fill_column_label stat s) at 1.
      now destruct (fill_column stat s).
    + rewrite map_map. simpl. now apply NoDup_labels_filter.
    + apply in_map_iff. exists s. split; trivial. apply filter_In. tauto.
    + reflexivity.
  - rewrite (fold_upd_notin assign_entry).
    + unfold fill_column. unfold is_number in Hnum.
      now destruct (data s).
    + rewrite map_map. simpl. intros H.
      apply in_map_iff in H. destruct H as (s' & Hl & Hs').
      apply filter_In in Hs'. destruct Hs' as [Hin' Hnum'].
      assert (s' = s) by (eapply label_unique; eauto).
      subst s'. congruence.
Qed.

(** The "mean" and "median" branches never raise on a dataset with unique
    labels, and act column by column. *)
Lemma fill_numerical_columns stat df :
  NoDup (labels df) ->
  FillMissingValuesStrategy.fill_numerical stat df df
  = inr {| index := index df; columns := map (fill_column stat) (columns df) |}.
Proof.
  destruct df as [i cols]. unfold labels. simpl. intros Hnd.
  unfold FillMissingValuesStrategy.fill_numerical, pd.select_dtypes_number,
    pd.getitem_list.
  simpl columns.
  rewrite (getitem_columns_sub {| index := i; columns := cols |}
             (filter is_number cols) Hnd)
    by (intros x Hx; apply filter_In in Hx; simpl; tauto).
  simpl ebind.
  rewrite reduce_numeric
    by (apply Forall_forall; intros x Hx; apply filter_In in Hx; tauto).
  simpl ebind.
  rewrite fillna_series_columns by (now apply NoDup_labels_filter).
  unfold pd.setitem_list. simpl columns.
  rewrite !length_map, Nat.eqb_refl.
  rewrite (map_ext_in _ (fill_column stat) (filter is_number cols)).
  2:{ intros s Hs. apply filter_In in Hs. destruct Hs as [Hin Hnum].
      apply fold_fill_entry; trivial.
      - now apply NoDup_labels_filter.
      - apply filter_In. tauto. }
  rewrite combine_map_both.
  rewrite setitem_fold.
  - f_equal. f_equal. apply map_ext_in. intros s Hs.
    now apply fold_assign_entry.
  - intros kv Hkv. apply in_map_iff in Hkv. destruct Hkv as (s & <- & Hs).
    simpl. apply filter_In in Hs. apply in_map. tauto.
Qed.

(** ** The Fill strategy: mean and median *)

Lemma Forall2_map_r {A B} (R : A -> B -> Prop) (f : A -> B) (l : list A) :
  (forall x, In x l -> R x (f x)) -> Forall2 R l (map f l).
Proof.
  induction l as [|x l IH]; simpl; intros H; constructor.
  - apply H. now left.
  - apply IH. intros y Hy. apply H. now right.
Qed.

Lemma mean_all_missing (v : list (option Q)) : pd.present v = [] -> pd.mean v = None.
Proof. unfold pd.mean. now intros ->. Qed.

Lemma median_all_missing (v : list (option Q)) :
  pd.present v = [] -> pd.median v = None.
Proof. unfold pd.median. now intros ->. Qed.

Lemma handle_fill_mean df :
  NoDup (labels df) ->
  handle (Fill (FillMissingValuesStrategy.init (Some "mean") None)) df
  = ([(INFO, "Filling missing values using method: mean");
      (INFO, "Missing values filled.")],
     inr {| index := index df; columns := map (fill_column pd.mean) (columns df) |}).
Proof.
  intros Hnd. simpl. unfold FillMissingValuesStrategy.handle. simpl.
  now rewrite (fill_numerical_columns pd.mean df Hnd).
Qed.

Lemma handle_fill_median df :
  NoDup (labels df) ->
  handle (Fill (FillMissingValuesStrategy.init (Some "median") None)) df
  = ([(INFO, "Filling missing values using method: median");
      (INFO, "Missing values filled.")],
     inr {| index := index df; columns := map (fill_column pd.median) (columns df) |}).
Proof.
  intros Hnd. simpl. unfold FillMissingValuesStrategy.handle. simpl.
  now rewrite (fill_numerical_columns pd.median df Hnd).
Qed.

Lemma fill_fill_some {A} (a : option A) (m : A) (v : list (option A)) :
  map (pd.fill a) (map (pd.fill (Some m)) v) = map (pd.fill (Some m)) v.
Proof.
  induction v as [|[x|] v IH]; simpl; now rewrite ?IH.
Qed.

(** A second statistic fill finds nothing to do: a filled column has no
    missing cell left, and a column whose statistic is NaN was not changed by
    the first fill. *)
Lemma fill_column_idempotent stat s :
  fill_column stat (fill_column stat s) = fill_column stat s.
Proof.
  unfold fill_column at 2 3.
  destruct (data s) as [v|v] eqn:E.
  - unfold fill_column. simpl. f_equal. f_equal.
    destruct (stat v) as [m|] eqn:Em.
    + apply fill_fill_some.
    + rewrite !fill_none. now rewrite Em, fill_none.
  - unfold fill_column. now rewrite E.
Qed.

Lemma fill_column_labels stat cols :
  map label (map (fill_column stat) cols) = map label cols.
Proof. rewrite map_map. apply map_ext. intros; apply fill_column_label. Qed.

(** C9. Applying the mean fill to the result of a mean fill returns that
    result unchanged, with the same log output. *)
Theorem fill_mean_idempotent (df : DataFrame) :
  well_formed df ->
  exists log df1,
    handle (Fill (FillMissingValuesStrategy.init (Some "mean") None)) df
    = (log, inr df1)
    /\ handle (Fill (FillMissingValuesStrategy.init (Some "mean") None)) df1
       = (log, inr df1).
Proof.
  intros [_ Hnd]. eexists. eexists.
  split; [apply (handle_fill_mean df Hnd)|].
  rewrite handle_fill_mean.
  - simpl. rewrite map_map.
    rewrite (map_ext _ (fill_column pd.mean)); trivial.
    intros s. apply fill_column_idempotent.
  - unfold labels. simpl. now rewrite fill_column_labels.
Qed.

(** ** Sorting and the most frequent values *)

Section SortingFacts.
Context {A : Type} (leb : A -> A -> bool).

Lemma in_insert (x a : A) (l : list A) :
  In x (pd.insert leb a l) <-> x = a \/ In x l.
Proof.
  induction l as [|y l IH]; simpl.
  - intuition congruence.
  - destruct (leb a y); simpl; rewrite ?IH; intuition congruence.
Qed.

Lemma in_sort (x : A) (l : list A) : In x (pd.sort leb l) <-> In x l.
Proof.
  induction l as [|y l IH]; simpl; [tauto|].
  rewrite in_insert, IH. intuition congruence.
Qed.

Lemma sort_not_nil (l : list A) : l <> [] -> pd.sort leb l <> [].
Proof.
  destruct l as [|y l]; [congruence|]. intros _ H.
  assert (Hin : In y (pd.sort leb (y :: l))) by (apply in_sort; now left).
  rewrite H in Hin. contradiction.
Qed.
End SortingFacts.

Section ModeFacts.
Context {A : Type} (eqb : A -> A -> bool).
Hypothesis eqb_refl : forall x, eqb x x = true.
Hypothesis eqb_sym : forall x y, eqb x y = true -> eqb y x = true.
Hypothesis eqb_trans :
  forall x y z, eqb x y = true -> eqb y z = true -> eqb x z = true.

Lemma count_le_max (x : A) (l l0 : list A) :
  In x l ->
  pd.count_of eqb x l0
  <= fold_right Nat.max 0 (map (fun x => pd.count_of eqb x l0) l).
Proof.
  induction l as [|y l IH]; simpl; [contradiction|].
  intros [->|Hin]; [lia|]. specialize (IH Hin). lia.
Qed.

Lemma max_reached (l l0 : list A) :
  l <> [] ->
  exists x, In x l
            /\ pd.count_of eqb x l0
               = fold_right Nat.max 0 (map (fun x => pd.count_of eqb x l0) l).
Proof.
  induction l as [|y l IH]; [congruence|]. intros _.
  destruct l as [|z l].
  - exists y. simpl. split; [now left|lia].
  - destruct IH as (x & Hin & Hx); [discriminate|].
    remember (z :: l) as l'. simpl.
    destruct (Nat.le_ge_cases
                (fold_right Nat.max 0 (map (fun x => pd.count_of eqb x l0) l'))
                (pd.count_of eqb y l0)).
    + exists y. split; [now left|lia].
    + exists x. split; [now right|lia].
Qed.

Lemma unique_in (x : A) (l : list A) : In x (pd.unique eqb l) -> In x l.
Proof.
  revert x. induction l as [|y l IH]; simpl; intros x; [tauto|].
  intros [->|Hin]; [now left|].
  apply filter_In in Hin. right. apply IH. tauto.
Qed.

Lemma unique_represents (x : A) (l : list A) :
  In x l -> exists y, In y (pd.unique eqb l) /\ eqb y x = true.
Proof.
  induction l as [|z l IH]; simpl; [contradiction|].
  intros [->|Hin].
  - exists x. split; [now left|apply eqb_refl].
  - destruct (IH Hin) as (y & Hy & Hyx).
    destruct (eqb z y) eqn:E.
    + exists z. split; [now left|]. eapply eqb_trans; eauto.
    + exists y. split; trivial. right. apply filter_In. now rewrite E.
Qed.

Lemma count_of_equiv (x y : A) (l : list A) :
  eqb x y = true -> pd.count_of eqb x l = pd.count_of eqb y l.
Proof.
  intros Hxy. unfold pd.count_of. f_equal. apply filter_ext. intros w.
  destruct (eqb x w) eqn:E1, (eqb y w) eqn:E2; trivial.
  - assert (eqb y w = true) by (eapply eqb_trans; eauto). congruence.
  - assert (eqb x w = true) by (eapply eqb_trans; eauto). congruence.
Qed.

Lemma modes_in (m : A) (l : list A) : In m (pd.modes eqb l) -> In m l.
Proof.
  unfold pd.modes. intros H. apply filter_In in H. apply unique_in. tauto.
Qed.

Lemma modes_most_frequent (m : A) (l : list A) :
  In m (pd.modes eqb l) ->
  forall x, In x l -> pd.count_of eqb x l <= pd.count_of eqb m l.
Proof.
  unfold pd.modes, pd.max_count. intros H x Hx.
  apply filter_In in H. destruct H as [_ H]. apply Nat.eqb_eq in H.
  rewrite H. now apply count_le_max.
Qed.

Lemma modes_not_nil (l : list A) : l <> [] -> pd.modes eqb l <> [].
Proof.
  intros Hl. destruct (max_reached l l Hl) as (x & Hin & Hx).
  destruct (unique_represents x l Hin) as (y & Hy & Hyx).
  intros Hnil.
  assert (Hmem : In y (pd.modes eqb l)).
  { unfold pd.modes. apply filter_In. split; trivial.
    apply Nat.eqb_eq. unfold pd.max_count. rewrite <- Hx.
    now apply count_of_equiv. }
  rewrite Hnil in Hmem. contradiction.
Qed.
End ModeFacts.

Lemma Qeq_bool_sym x y : Qeq_bool x y = true -> Qeq_bool y x = true.
Proof. rewrite !Qeq_bool_iff. intros H. now symmetry. Qed.

Lemma scalar_eqb_refl x : pd.scalar_eqb x x = true.
Proof. destruct x; simpl; [apply Qeq_bool_refl|apply String.eqb_refl]. Qed.

Lemma scalar_eqb_sym x y : pd.scalar_eqb x y = true -> pd.scalar_eqb y x = true.
Proof.
  destruct x, y; simpl; try discriminate.
  - apply Qeq_bool_sym.
  - rewrite !String.eqb_eq. congruence.
Qed.

Lemma scalar_eqb_trans x y z :
  pd.scalar_eqb x y = true -> pd.scalar_eqb y z = true -> pd.scalar_eqb x z = true.
Proof.
  destruct x, y, z; simpl; try discriminate.
  - apply Qeq_bool_trans.
  - rewrite !String.eqb_eq. congruence.
Qed.

Lemma in_present {A} (x : A) (l : list (option A)) :
  In x (pd.present l) <-> In (Some x) l.
Proof.
  induction l as [|[y|] l IH]; simpl; [tauto| |].
  - rewrite IH. intuition congruence.
  - rewrite IH. intuition congruence.
Qed.

Lemma present_map {A B} (f : A -> B) (l : list (option A)) :
  pd.present (map (option_map f) l) = map f (pd.present l).
Proof. induction l as [|[y|] l IH]; simpl; now rewrite ?IH. Qed.

Lemma count_of_Num (q : Q) (p : list Q) :
  pd.count_of pd.scalar_eqb (Num q) (map Num p) = pd.count_of Qeq_bool q p.
Proof.
  unfold pd.count_of. induction p as [|y p IH]; simpl; trivial.
  destruct (Qeq_bool q y); simpl; now rewrite IH.
Qed.

(** Every value returned by [Series.mode()] is a non-missing cell of the
    column, and no non-missing value of the column occurs more often. *)
Lemma mode_most_frequent (d : values) (m : scalar) :
  In m (pd.mode d) ->
  In (Some m) (cells d)
  /\ forall x, In (Some x) (cells d) ->
               pd.count_of pd.scalar_eqb x (pd.present (cells d))
               <= pd.count_of pd.scalar_eqb m (pd.present (cells d)).
Proof.
  destruct d as [v|v]; simpl.
  - intros Hm. apply in_map_iff in Hm. destruct Hm as (q & <- & Hq).
    apply in_sort in Hq. split.
    + apply in_map_iff. exists (Some q). split; trivial.
      apply in_present. eapply modes_in; eauto.
    + intros x Hx. apply in_map_iff in Hx. destruct Hx as ([y|] & Hy & Hin);
        simpl in Hy; [|discriminate].
      injection Hy as <-. rewrite present_map, !count_of_Num.
      eapply modes_most_frequent; eauto. now apply in_present.
  - intros Hm.
    assert (Hm' : In m (pd.modes pd.scalar_eqb (pd.present v))).
    { destruct (forallb pd.is_num (pd.modes pd.scalar_eqb (pd.present v))
                || forallb (fun x => negb (pd.is_num x))
                     (pd.modes pd.scalar_eqb (pd.present v)));
        [now apply in_sort in Hm|exact Hm]. }
    split.
    + apply in_present. eapply modes_in; eauto.
    + intros x Hx. eapply modes_most_frequent; eauto. now apply in_present.
Qed.

Lemma mode_not_nil (d : values) : pd.present (cells d) <> [] -> pd.mode d <> [].
Proof.
  destruct d as [v|v]; simpl.
  - rewrite present_map. intros Hp.
    assert (Hv : pd.present v <> []) by (destruct (pd.present v); simpl in *; congruence).
    intros H. apply map_eq_nil in H. revert H. apply sort_not_nil.
    apply modes_not_nil; trivial.
    + apply Qeq_bool_refl.
    + apply Qeq_bool_sym.
    + apply Qeq_bool_trans.
  - intros Hp.
    assert (Hm : pd.modes pd.scalar_eqb (pd.present v) <> []).
    { apply modes_not_nil; trivial.
      - apply scalar_eqb_refl.
      - apply scalar_eqb_sym.
      - apply scalar_eqb_trans. }
    destruct (forallb pd.is_num (pd.modes pd.scalar_eqb (pd.present v))
              || forallb (fun x => negb (pd.is_num x))
                   (pd.modes pd.scalar_eqb (pd.present v))); trivial.
    now apply sort_not_nil.
Qed.

(** ** The Fill strategy: mode *)

Lemma fill_mode_column_label s : label (fill_mode_column s) = label s.
Proof. unfold fill_mode_column. now destruct (pd.mode (data s)). Qed.

Lemma fill_mode_column_labels cols :
  map label (map fill_mode_column cols) = map label cols.
Proof. rewrite map_map. apply map_ext. intros; apply fill_mode_column_label. Qed.

(** Overwriting the column labelled like [s] in a list where [s] is the only
    column of that label. *)
Lemma setitem_middle i (before after : list Series) (s : Series) (v : values) :
  NoDup (map label (before ++ s :: after)) ->
  pd.setitem {| index := i; columns := before ++ s :: after |} (label s) v
  = {| index := i;
       columns := before ++ {| label := label s; data := v |} :: after |}.
Proof.
  intros Hnd. unfold pd.setitem. simpl columns.
  assert (Hex : existsb (pd.has_label (label s)) (before ++ s :: after) = true).
  { apply existsb_has_label. apply in_map. apply in_elt. }
  rewrite Hex. f_equal.
  assert (Hother : forall s', In s' before \/ In s' after ->
                              pd.has_label (label s) s' = false).
  { intros s' Hin. apply has_label_false. intros Heq.
    rewrite map_app in Hnd. simpl in Hnd.
    apply NoDup_remove_2 in Hnd. apply Hnd. rewrite <- Heq.
    apply in_or_app. destruct Hin; [left|right]; now apply in_map. }
  rewrite map_app. simpl.
  rewrite (proj2 (has_label_true (label s) s) eq_refl).
  f_equal; [|f_equal].
  - transitivity (map (fun x : Series => x) before); [|apply map_id].
    apply map_ext_in. intros s' Hs'. rewrite Hother; auto.
  - transitivity (map (fun x : Series => x) after); [|apply map_id].
    apply map_ext_in. intros s' Hs'. rewrite Hother; auto.
Qed.

Lemma fill_mode_loop i (rest done cols : list Series) :
  cols = done ++ rest ->
  NoDup (map label cols) ->
  (forall s, In s rest -> pd.mode (data s) <> []) ->
  FillMissingValuesStrategy.fill_mode
    {| index := i; columns := cols |} (map label rest)
    {| index := i; columns := map fill_mode_column done ++ rest |}
  = inr {| index := i; columns := map fill_mode_column cols |}.
Proof.
  revert done. induction rest as [|s rest IH]; intros done Hcols Hnd Hmode.
  - simpl. subst cols. now rewrite !app_nil_r.
  - simpl map. simpl FillMissingValuesStrategy.fill_mode.
    assert (Hnd' : NoDup (map label (map fill_mode_column done ++ s :: rest))).
    { rewrite map_app, fill_mode_column_labels, <- map_app. now rewrite <- Hcols. }
    unfold pd.getitem at 1. simpl columns.
    rewrite (find_has_label _ s Hnd') by apply in_elt.
    simpl ebind. unfold pd.getitem at 1. simpl columns.
    rewrite (find_has_label cols s Hnd) by (subst cols; apply in_elt).
    simpl ebind.
    assert (Hs : pd.mode (data s) <> []) by (apply Hmode; now left).
    destruct (pd.mode (data s)) as [|m ms] eqn:Em; [congruence|].
    simpl ebind.
    rewrite setitem_middle by assumption.
    assert (Hfs : {| label := label s; data := pd.fillna_values (Some m) (data s) |}
                  = fill_mode_column s).
    { unfold fill_mode_column. now rewrite Em. }
    rewrite Hfs.
    specialize (IH (done ++ [s])).
    rewrite map_app in IH. simpl in IH. rewrite <- !app_assoc in IH. simpl in IH.
    apply IH; trivial.
    intros s' Hs'. apply Hmode. now right.
Qed.

Lemma cells_fillna_mode (d : values) (m : scalar) :
  In m (pd.mode d) ->
  cells (pd.fillna_values (Some m) d) = map (pd.fill (Some m)) (cells d).
Proof.
  destruct d as [v|v]; simpl; trivial.
  intros Hm. apply in_map_iff in Hm. destruct Hm as (q & <- & _). simpl.
  rewrite !map_map. apply map_ext. now intros [x|].
Qed.

Lemma handle_fill_mode df :
  NoDup (labels df) ->
  (forall s, In s (columns df) -> pd.mode (data s) <> []) ->
  handle (Fill (FillMissingValuesStrategy.init (Some "mode") None)) df
  = ([(INFO, "Filling missing values using method: mode");
      (INFO, "Missing values filled.")],
     inr {| index := index df; columns := map fill_mode_column (columns df) |}).
Proof.
  intros Hnd Hmode. destruct df as [i cols].
  simpl. unfold FillMissingValuesStrategy.handle. simpl.
  unfold labels. simpl columns.
  pose proof (fill_mode_loop i cols [] cols eq_refl Hnd Hmode) as Hloop.
  simpl in Hloop. now rewrite Hloop.
Qed.

(** C3, at the failing input. On a dataset with a column that has no
    non-missing cell the "mode" fill does not complete: [mode()] of that
    column is empty and the unguarded [.iloc[0]] raises IndexError after the
    first log record, where the "mean" and "median" branches pass such a
    column over and return. *)
Lemma fill_mode_all_missing_column_raises :
  let df := {| index := [0; 1];
               columns := [ {| label := "Alley"; data := Object [None; None] |};
                            {| label := "LotArea";
                               data := Number [Some 1%Q; None] |} ] |} in
  handle (Fill (FillMissingValuesStrategy.init (Some "mode") None)) df
  = ([(INFO, "Filling missing values using method: mode")],
     inl (IndexError "single positional indexer is out-of-bounds"))
  /\ ~ (exists log df',
          handle (Fill (FillMissingValuesStrategy.init (Some "mode") None)) df
          = (log, inr df')).
Proof.
  split; [reflexivity|].
  intros (log & df' & H). vm_compute in H. discriminate.
Qed.

(** X19. Fill strategy, method "mode", on a well-formed dataset in which
    every column has at least one non-missing cell: the operation returns,
    logging only its two progress records, and every column keeps its label
    and has each missing cell replaced by one value [m] of the column such
    that no non-missing value of the column occurs more often than [m];
    present cells are unchanged. *)
Theorem fill_mode_replaces_missing (df : DataFrame) :
  well_formed df ->
  (forall s, In s (columns df) -> exists x, In (Some x) (cells (data s))) ->
  exists df',
    handle (Fill (FillMissingValuesStrategy.init (Some "mode") None)) df
    = ([(INFO, "Filling missing values using method: mode");
        (INFO, "Missing values filled.")], inr df')
    /\ index df' = index df
    /\ Forall2
         (fun s s' =>
            label s' = label s
            /\ exists m,
                In (Some m) (cells (data s))
                /\ (forall x, In (Some x) (cells (data s)) ->
                              pd.count_of pd.scalar_eqb x (pd.present (cells (data s)))
                              <= pd.count_of pd.scalar_eqb m
                                   (pd.present (cells (data s))))
                /\ cells (data s') = map (pd.fill (Some m)) (cells (data s)))
         (columns df) (columns df').
Proof.
  intros [_ Hnd] Hpresent.
  assert (Hmode : forall s, In s (columns df) -> pd.mode (data s) <> []).
  { intros s Hs. apply mode_not_nil.
    destruct (Hpresent s Hs) as (x & Hx). apply in_present in Hx.
    intros Hnil. rewrite Hnil in Hx. contradiction. }
  eexists. split; [apply (handle_fill_mode df Hnd Hmode)|].
  split; [reflexivity|]. simpl columns.
  apply Forall2_map_r. intros s Hs. split; [apply fill_mode_column_label|].
  specialize (Hmode s Hs). unfold fill_mode_column.
  destruct (pd.mode (data s)) as [|m ms] eqn:Em; [congruence|].
  assert (Hm : In m (pd.mode (data s))) by (rewrite Em; now left).
  exists m. destruct (mode_most_frequent (data s) m Hm) as [Hin Hmax].
  split; [exact Hin|]. split; [exact Hmax|].
  simpl. now apply cells_fillna_mode.
Qed.

(** ** Columns without any non-missing cell under mean and median *)

(** C4, counterexample. A numeric column without any non-missing cell is
    passed over silently: the log of the mean fill and of the median fill
    holds the two progress records that every call emits and nothing else, so
    no diagnostic is emitted for the skipped column. *)
Lemma fill_mean_all_missing_column_no_diagnostic :
  let df := {| index := [0; 1];
               columns := [ {| label := "PoolArea"; data := Number [None; None] |};
                            {| label := "LotArea";
                               data := Number [Some 4%Q; None] |} ] |} in
  ~ (exists log df',
        handle (Fill (FillMissingValuesStrategy.init (Some "mean") None)) df
        = (log, inr df')
        /\ exists r, In r log
                     /\ r <> (INFO, "Filling missing values using method: mean")
                     /\ r <> (INFO, "Missing values filled."))
  /\ ~ (exists log df',
        handle (Fill (FillMissingValuesStrategy.init (Some "median") None)) df
        = (log, inr df')
        /\ exists r, In r log
                     /\ r <> (INFO, "Filling missing values using method: median")
                     /\ r <> (INFO, "Missing values filled.")).
Proof.
  split; intros (log & df' & H & r & Hin & H1 & H2);
    vm_compute in H; injection H as <- _;
    simpl in Hin; intuition congruence.
Qed.

(** C4, amended. Fill strategy with method "mean" or "median" on a
    well-formed dataset: the operation does not fail and logs only its two
    progress records (no diagnostic for a skipped column); a numeric column
    without any non-missing cell is returned unchanged; every other numeric
    column has its missing cells replaced by the statistic of the column, and
    every text column is unchanged. *)
Theorem fill_statistic_skips_all_missing_column (method : string) (df : DataFrame) :
  well_formed df ->
  method = "mean" \/ method = "median" ->
  exists df',
    handle (Fill (FillMissingValuesStrategy.init (Some method) None)) df
    = ([(INFO, ("Filling missing values using method: " ++ method)%string);
        (INFO, "Missing values filled.")], inr df')
    /\ index df' = index df
    /\ Forall2
         (fun s s' =>
            label s' = label s
            /\ match data s with
               | Object v => data s' = Object v
               | Number v =>
                   (pd.present v = [] -> data s' = Number v)
                   /\ (pd.present v <> [] ->
                       data s'
                       = Number (map (pd.fill (if String.eqb method "mean"
                                               then pd.mean v else pd.median v))
                                     v))
               end)
         (columns df) (columns df').
Proof.
  intros [_ Hnd] [-> | ->].
  - eexists. split; [apply (handle_fill_mean df Hnd)|].
    split; [reflexivity|]. simpl columns.
    apply Forall2_map_r. intros s _. split; [apply fill_column_label|].
    unfold fill_column. destruct (data s) as [v|v] eqn:E; simpl; trivial.
    split; trivial.
    intros Hp. now rewrite (mean_all_missing v Hp), fill_none.
  - eexists. split; [apply (handle_fill_median df Hnd)|].
    split; [reflexivity|]. simpl columns.
    apply Forall2_map_r. intros s _. split; [apply fill_column_label|].
    unfold fill_column. destruct (data s) as [v|v] eqn:E; simpl; trivial.
    split; trivial.
    intros Hp. now rewrite (median_all_missing v Hp), fill_none.
Qed.

(** ** The Fill strategy: constant and unknown methods *)

Lemma handle_fill_constant_none df :
  handle (Fill (FillMissingValuesStrategy.init (Some "constant") None)) df
  = ([(INFO, "Filling missing values using method: constant")],
     inl (ValueError "Must specify a fill 'value' or 'method'.")).
Proof. reflexivity. Qed.

(** C5. Fill strategy with method "constant" and no fill literal: whatever the
    dataset, [handle] raises the ValueError of [fillna(None)] right after its
    first log record; it never returns a dataset. *)
Theorem fill_constant_without_literal_raises (df : DataFrame) :
  handle (Fill (FillMissingValuesStrategy.init (Some "constant") None)) df
  = ([(INFO, "Filling missing values using method: constant")],
     inl (ValueError "Must specify a fill 'value' or 'method'.")).
Proof. apply handle_fill_constant_none. Qed.

(** C6. Fill strategy with a method name other than "mean", "median", "mode"
    and "constant": [handle] does not raise, returns the input dataset
    unchanged, and logs one warning between its two progress records. *)
Theorem fill_unknown_method_warns (method : string) (fill_value : option scalar)
        (df : DataFrame) :
  ~ In method ["mean"; "median"; "mode"; "constant"] ->
  handle (Fill (FillMissingValuesStrategy.init (Some method) fill_value)) df
  = ([(INFO, ("Filling missing values using method: " ++ method)%string);
      (WARNING, ("'" ++ method
                 ++ "' is an unknown method... No missing values handled.")%string);
      (INFO, "Missing values filled.")],
     inr df).
Proof.
  intros Hnot.
  simpl. unfold FillMissingValuesStrategy.handle. simpl.
  destruct (String.eqb_spec method "mean") as [->|_];
    [exfalso; apply Hnot; simpl; tauto|].
  destruct (String.eqb_spec method "median") as [->|_];
    [exfalso; apply Hnot; simpl; tauto|].
  destruct (String.eqb_spec method "mode") as [->|_];
    [exfalso; apply Hnot; simpl; tauto|].
  destruct (String.eqb_spec method "constant") as [->|_];
    [exfalso; apply Hnot; simpl; tauto|].
  reflexivity.
Qed.

(** ** The cleaning step *)

Lemma bind_ret_l {A B} (a : A) (f : A -> M B) : bind (ret a) f = f a.
Proof. unfold bind, ret. now destruct (f a). Qed.

Lemma bind_ret_r {A} (m : M A) : bind m ret = m.
Proof.
  destruct m as [l [e|a]]; simpl; trivial. now rewrite app_nil_r.
Qed.

Lemma handle_missing_values_result strategy df l r :
  handle strategy df = (l, r) ->
  MissingValueHandler.handle_missing_values (MissingValueHandler.init strategy) df
  = ((INFO, "Executing the current missing value handling strategy.") :: l, r).
Proof.
  intros H. unfold MissingValueHandler.handle_missing_values. simpl.
  rewrite H. reflexivity.
Qed.

Lemma step_delegates_drop df :
  handle_missing_values_step df "drop"
  = MissingValueHandler.handle_missing_values
      (MissingValueHandler.init
         (Drop (DropMissingValuesStrategy.init (Some 0%Z) None))) df.
Proof.
  unfold handle_missing_values_step. simpl String.eqb. cbv iota.
  rewrite bind_ret_l. apply bind_ret_r.
Qed.

Lemma step_delegates_fill df strategy :
  In strategy ["mean"; "median"; "mode"; "constant"] ->
  handle_missing_values_step df strategy
  = MissingValueHandler.handle_missing_values
      (MissingValueHandler.init
         (Fill (FillMissingValuesStrategy.init (Some strategy) None))) df.
Proof.
  intros Hin. unfold handle_missing_values_step.
  assert (Hdrop : String.eqb strategy "drop" = false).
  { simpl in Hin. decompose [or] Hin; subst; trivial. contradiction. }
  assert (Hex : existsb (String.eqb strategy) ["mean"; "median"; "mode"; "constant"]
                = true).
  { apply existsb_exists. exists strategy. split; trivial. apply String.eqb_refl. }
  rewrite Hdrop, Hex, bind_ret_l. apply bind_ret_r.
Qed.

Lemma step_rejects df strategy :
  ~ In strategy ["drop"; "mean"; "median"; "mode"; "constant"] ->
  handle_missing_values_step df strategy = ([], inl (unsupported_strategy strategy)).
Proof.
  intros Hnot. unfold handle_missing_values_step.
  assert (Hdrop : String.eqb strategy "drop" = false).
  { apply String.eqb_neq. intros ->. apply Hnot. now left. }
  assert (Hex : existsb (String.eqb strategy) ["mean"; "median"; "mode"; "constant"]
                = false).
  { destruct (existsb _ _) eqn:E; trivial.
    apply existsb_exists in E. destruct E as (x & Hx & Heq).
    apply String.eqb_eq in Heq. subst x. exfalso. apply Hnot. now right. }
  rewrite Hdrop, Hex. reflexivity.
Qed.

(** The loop of the "mode" branch raises nothing but lookup errors. *)
Lemma fill_mode_errors df cols acc e :
  FillMissingValuesStrategy.fill_mode df cols acc = inl e ->
  (exists msg, e = KeyError msg) \/ (exists msg, e = IndexError msg).
Proof.
  revert acc. induction cols as [|col cols IH]; intros acc; simpl; [discriminate|].
  unfold pd.getitem.
  destruct (find (pd.has_label col) (columns acc)); simpl;
    [|intros H; injection H as <-; eauto].
  destruct (find (pd.has_label col) (columns df)); simpl;
    [|intros H; injection H as <-; eauto].
  destruct (pd.mode (data s0)); simpl;
    [intros H; injection H as <-; eauto|].
  apply IH.
Qed.

Lemma handle_fill_mode_errors df l e :
  handle (Fill (FillMissingValuesStrategy.init (Some "mode") None)) df = (l, inl e) ->
  (exists msg, e = KeyError msg) \/ (exists msg, e = IndexError msg).
Proof.
  simpl. unfold FillMissingValuesStrategy.handle. simpl.
  destruct (FillMissingValuesStrategy.fill_mode df (labels df) df) as [e'|d] eqn:E;
    simpl.
  - intros H. injection H as _ <-. eapply fill_mode_errors; eauto.
  - discriminate.
Qed.

(** C7. Cleaning step on a well-formed dataset: the step raises the selection
    error (the ValueError naming the unsupported strategy) exactly when the
    strategy name is none of "drop", "mean", "median", "mode", "constant"; for
    "drop" it is the handler with the row-dropping strategy without threshold,
    and for the four fill names it is the handler with the fill strategy of
    that method and no fill literal. *)
Theorem step_selection_boundary (df : DataFrame) (strategy : string) :
  well_formed df ->
  ((exists log,
       handle_missing_values_step df strategy
       = (log, inl (unsupported_strategy strategy)))
   <-> ~ In strategy ["drop"; "mean"; "median"; "mode"; "constant"])
  /\ (strategy = "drop" ->
      handle_missing_values_step df strategy
      = MissingValueHandler.handle_missing_values
          (MissingValueHandler.init
             (Drop (DropMissingValuesStrategy.init (Some 0%Z) None))) df)
  /\ (In strategy ["mean"; "median"; "mode"; "constant"] ->
      handle_missing_values_step df strategy
      = MissingValueHandler.handle_missing_values
          (MissingValueHandler.init
             (Fill (FillMissingValuesStrategy.init (Some strategy) None))) df).
Proof.
  intros [Hlen Hnd]. split; [split|split].
  - intros (log & H) Hin.
    destruct Hin as [<-|Hin].
    + rewrite step_delegates_drop in H.
      destruct (drop_handle_rows None df Hlen) as (l & df' & Hd & _).
      rewrite (handle_missing_values_result _ df l (inr df')) in H by exact Hd.
      discriminate.
    + rewrite (step_delegates_fill df strategy Hin) in H.
      simpl in Hin. destruct Hin as [<-|[<-|[<-|[<-|[]]]]].
      * rewrite (handle_missing_values_result _ df _ _ (handle_fill_mean df Hnd)) in H.
        discriminate.
      * rewrite (handle_missing_values_result _ df _ _ (handle_fill_median df Hnd)) in H.
        discriminate.
      * destruct (handle (Fill (FillMissingValuesStrategy.init (Some "mode") None)) df)
          as [l [e|d]] eqn:E.
        -- rewrite (handle_missing_values_result _ df l (inl e)) in H by exact E.
           injection H as _ ->.
           destruct (handle_fill_mode_errors df l _ E) as [[msg Hm]|[msg Hm]];
             discriminate.
        -- rewrite (handle_missing_values_result _ df l (inr d)) in H by exact E.
           discriminate.
      * rewrite (handle_missing_values_result _ df _ _
                   (handle_fill_constant_none df)) in H.
        discriminate.
  - intros Hnot. exists []. now apply step_rejects.
  - intros ->. apply step_delegates_drop.
  - apply step_delegates_fill.
Qed.

(** C10. The cleaning step with strategy "constant" builds the fill strategy
    without a fill literal, so on every dataset (with or without missing
    cells) it runs into the ValueError of [fillna(None)] and returns no
    dataset. *)
Theorem step_constant_never_fills (df : DataFrame) :
  handle_missing_values_step df "constant"
  = MissingValueHandler.handle_missing_values
      (MissingValueHandler.init
         (Fill {| FillMissingValuesStrategy.method := "constant";
                  FillMissingValuesStrategy.fill_value := None |})) df
  /\ handle_missing_values_step df "constant"
     = ([(INFO, "Executing the current missing value handling strategy.");
         (INFO, "Filling missing values using method: constant")],
        inl (ValueError "Must specify a fill 'value' or 'method'.")).
Proof.
  split.
  - apply (step_delegates_fill df "constant"). simpl. tauto.
  - rewrite (step_delegates_fill df "constant") by (simpl; tauto).
    apply handle_missing_values_result. apply handle_fill_constant_none.
Qed.

(** ** The archive ingestor *)

(** C8. Once the path ends in ".zip", the archive opens, its members are
    extracted and the staging directory is listed, the archive ingestor
    decides by the number of listed names ending in ".csv": none raises
    FileNotFoundError ("No CSV file found"), two or more raise the ValueError
    about multiple CSV files, and exactly one is parsed by [read_csv], whose
    result is returned. *)
Theorem zip_ingest_by_csv_count
        (read_csv : FileSystem -> string -> exn + DataFrame)
        (fs fs' : FileSystem) (file_path : string) (zip_ref : list member)
        (extracted_files : list string) :
  endswith file_path ".zip" = true ->
  ZipFile fs file_path = inr zip_ref ->
  extractall zip_ref fs = (fs', inr tt) ->
  listdir fs' = inr extracted_files ->
  let csv_files := filter (fun f => endswith f ".csv") extracted_files in
  (List.length csv_files = 0 ->
   ZipDataIngestor_ingest read_csv fs file_path
   = (fs', inl (FileNotFoundError "No CSV file found in the extracted data.")))
  /\ (2 <= List.length csv_files ->
      ZipDataIngestor_ingest read_csv fs file_path
      = (fs', inl (ValueError
                     "Multiple CSV files found. Please specify which one to use.")))
  /\ (forall f, csv_files = [f] ->
      ZipDataIngestor_ingest read_csv fs file_path
      = (fs', read_csv fs' (path_join "extracted_data" f))).
Proof.
  intros Hzip Hopen Hextract Hlist csv_files.
  unfold ZipDataIngestor_ingest.
  rewrite Hzip, Hopen, Hextract, Hlist. simpl negb. cbv iota beta.
  fold csv_files.
  split; [|split].
  - intros H0. now rewrite H0.
  - intros H2.
    destruct (Nat.eqb_spec (List.length csv_files) 0) as [E|_]; [lia|].
    destruct (Nat.ltb_spec 1 (List.length csv_files)) as [_|E]; [reflexivity|lia].
  - intros f Hf. rewrite Hf. reflexivity.
Qed.

(** ** Instances on the sample data *)

Lemma housing_sample_well_formed : well_formed housing_sample.
Proof.
  split.
  - repeat constructor.
  - unfold labels. simpl. repeat constructor; simpl; intuition discriminate.
Qed.

Lemma housing_sample_no_empty_column_well_formed :
  well_formed housing_sample_no_empty_column.
Proof.
  split.
  - repeat constructor.
  - unfold labels. simpl. repeat constructor; simpl; intuition discriminate.
Qed.

Lemma drop_retains_by_threshold_witness :
  well_formed housing_sample
  /\ exists log df',
      handle (Drop (DropMissingValuesStrategy.init (Some 0%Z) (Some 1%Z)))
             housing_sample = (log, inr df')
      /\ labels df' = labels housing_sample
      /\ iterrows df'
         = filter (fun r => (1 <=? Z.of_nat (notna_count (snd r)))%Z)
                  (iterrows housing_sample).
Proof.
  split; [exact housing_sample_well_formed|].
  exact (proj1 (drop_retains_by_threshold 1%Z housing_sample
                  housing_sample_well_formed)).
Defined.

Lemma fill_mode_replaces_missing_witness :
  well_formed housing_sample_no_empty_column
  /\ (forall s, In s (columns housing_sample_no_empty_column) ->
                exists x, In (Some x) (cells (data s)))
  /\ exists df',
      handle (Fill (FillMissingValuesStrategy.init (Some "mode") None))
             housing_sample_no_empty_column
      = ([(INFO, "Filling missing values using method: mode");
          (INFO, "Missing values filled.")], inr df')
      /\ index df' = index housing_sample_no_empty_column.
Proof.
  assert (Hp : forall s, In s (columns housing_sample_no_empty_column) ->
                         exists x, In (Some x) (cells (data s))).
  { simpl. intros s [<-|[<-|[]]]; simpl.
    - exists (Num 1%Q). now left.
    - exists (Str "Pave"). right. now left. }
  split; [exact housing_sample_no_empty_column_well_formed|].
  split; [exact Hp|].
  destruct (fill_mode_replaces_missing housing_sample_no_empty_column
              housing_sample_no_empty_column_well_formed Hp) as (df' & H & Hi & _).
  exists df'. split; assumption.
Defined.

Lemma fill_statistic_skips_all_missing_column_witness :
  well_formed housing_sample
  /\ ("median" = "mean" \/ "median" = "median")
  /\ exists df',
      handle (Fill (FillMissingValuesStrategy.init (Some "median") None)) housing_sample
      = ([(INFO, "Filling missing values using method: median");
          (INFO, "Missing values filled.")], inr df')
      /\ index df' = index housing_sample.
Proof.
  split; [exact housing_sample_well_formed|].
  split; [now right|].
  destruct (fill_statistic_skips_all_missing_column "median" housing_sample
              housing_sample_well_formed (or_intror eq_refl)) as (df' & H & Hi & _).
  exists df'. split; assumption.
Defined.

Lemma fill_unknown_method_warns_witness :
  ~ In "max" ["mean"; "median"; "mode"; "constant"]
  /\ handle (Fill (FillMissingValuesStrategy.init (Some "max") None)) housing_sample
     = ([(INFO, "Filling missing values using method: max");
         (WARNING, "'max' is an unknown method... No missing values handled.");
         (INFO, "Missing values filled.")],
        inr housing_sample).
Proof.
  assert (H : ~ In "max" ["mean"; "median"; "mode"; "constant"])
    by (simpl; intuition discriminate).
  split; [exact H|].
  exact (fill_unknown_method_warns "max" None housing_sample H).
Defined.

Lemma step_selection_boundary_witness :
  well_formed housing_sample
  /\ ((exists log,
          handle_missing_values_step housing_sample "interpolate"
          = (log, inl (unsupported_strategy "interpolate")))
      <-> ~ In "interpolate" ["drop"; "mean"; "median"; "mode"; "constant"]).
Proof.
  split; [exact housing_sample_well_formed|].
  exact (proj1 (step_selection_boundary housing_sample "interpolate"
                  housing_sample_well_formed)).
Defined.

Lemma zip_ingest_by_csv_count_witness :
  endswith "data/archive.zip" ".zip" = true
  /\ ZipFile archive_sample "data/archive.zip" = inr ames_archive
  /\ (exists fs',
        extractall ames_archive archive_sample = (fs', inr tt)
        /\ listdir fs' = inr ["AmesHousing.csv"]
        /\ ZipDataIngestor_ingest (fun _ _ => inr housing_sample)
                                  archive_sample "data/archive.zip"
           = (fs', inr housing_sample)).
Proof.
  split; [reflexivity|]. split; [reflexivity|].
  eexists. split; [reflexivity|]. split; [reflexivity|].
  exact (proj2 (proj2 (zip_ingest_by_csv_count
                         (fun _ _ => inr housing_sample)
                         archive_sample _ "data/archive.zip" ames_archive
                         ["AmesHousing.csv"]
                         eq_refl eq_refl eq_refl eq_refl))
               "AmesHousing.csv" eq_refl).
Defined.

Lemma fill_mean_idempotent_witness :
  well_formed housing_sample
  /\ exists log df1,
      handle (Fill (FillMissingValuesStrategy.init (Some "mean") None)) housing_sample
      = (log, inr df1)
      /\ handle (Fill (FillMissingValuesStrategy.init (Some "mean") None)) df1
         = (log, inr df1).
Proof.
  split; [exact housing_sample_well_formed|].
  exact (fill_mean_idempotent housing_sample housing_sample_well_formed).
Defined.

(** * Further properties of the cleaning strategies *)

(** ** Drop: invariants and repeated application *)

Lemma keep_mask_kept thresh lines : pd.keep_mask thresh lines = map (kept thresh) lines.
Proof. now destruct thresh. Qed.

Lemma take_lengths {A B} (mask : list bool) (l1 : list A) (l2 : list B) :
  List.length l1 = List.length l2 ->
  List.length (take mask l1) = List.length (take mask l2).
Proof.
  revert l1 l2. induction mask as [|b mask IH]; intros [|x l1] [|y l2] H;
    simpl in *; try discriminate; trivial.
  injection H as H. destruct b; simpl; auto.
Qed.

Lemma in_take {A} (mask : list bool) (l : list A) (x : A) :
  In x (take mask l) -> In x l.
Proof.
  revert l. induction mask as [|b mask IH]; intros [|y l]; simpl; try tauto.
  destruct b; simpl; intros H; [destruct H as [H|H]|]; auto.
Qed.

Lemma NoDup_take {A} (mask : list bool) (l : list A) :
  NoDup l -> NoDup (take mask l).
Proof.
  revert l. induction mask as [|b mask IH]; intros [|y l] H; simpl;
    try constructor.
  inversion H as [|? ? Hnotin Hnd]; subst.
  destruct b; auto. constructor; auto.
  intros Hin. apply Hnotin. eapply in_take; eauto.
Qed.

Lemma take_all_true {A} (mask : list bool) (l : list A) :
  Forall (fun b => b = true) mask ->
  List.length l <= List.length mask ->
  take mask l = l.
Proof.
  revert l. induction mask as [|b mask IH]; intros [|y l] Hall Hlen;
    simpl in *; trivial; [lia|].
  inversion Hall as [|? ? Hb Hall']; subst. f_equal. apply IH; trivial. lia.
Qed.

Lemma drop_handle_result s df log df' :
  handle (Drop s) df = (log, inr df') ->
  pd.dropna (DropMissingValuesStrategy.axis s)
            (DropMissingValuesStrategy.threshold s) df = inr df'.
Proof.
  simpl. unfold DropMissingValuesStrategy.handle.
  destruct (pd.dropna _ _ df) as [e|d]; simpl; [discriminate|].
  intros H. injection H as _ <-. reflexivity.
Qed.

Lemma drop_handle_log s df d :
  pd.dropna (DropMissingValuesStrategy.axis s)
            (DropMissingValuesStrategy.threshold s) df = inr d ->
  handle (Drop s) df
  = ([(INFO, ("Dropping missing values with axis="
              ++ repr_int (DropMissingValuesStrategy.axis s)
              ++ " and threshold="
              ++ repr_optional_int (DropMissingValuesStrategy.threshold s))%string);
      (INFO, "Missing values dropped.")], inr d).
Proof.
  intros H. simpl. unfold DropMissingValuesStrategy.handle. now rewrite H.
Qed.

Lemma dropna_well_formed axis thresh df df' :
  well_formed df -> pd.dropna axis thresh df = inr df' -> well_formed df'.
Proof.
  intros [Hlen Hnd]. unfold pd.dropna.
  destruct (axis =? 0)%Z; [|destruct (axis =? 1)%Z; [|discriminate]];
    intros H; injection H as <-; split; simpl.
  - rewrite Forall_map. eapply Forall_impl; [|exact Hlen].
    intros s Hs. simpl. rewrite cells_values_take. now apply take_lengths.
  - unfold labels. simpl. now rewrite labels_series_take.
  - apply Forall_forall. intros s Hs. apply in_take in Hs.
    rewrite Forall_forall in Hlen. now apply Hlen.
  - unfold labels in *. simpl. rewrite <- take_map. now apply NoDup_take.
Qed.

(** X1. The Drop strategy keeps the dataset invariant: whatever the axis and
    the threshold, the dataset it returns has one cell per row label in every
    column and unique column labels. *)
Theorem drop_preserves_well_formed
        (s : DropMissingValuesStrategy.t) (df df' : DataFrame) (log : list record) :
  well_formed df ->
  handle (Drop s) df = (log, inr df') ->
  well_formed df'.
Proof.
  intros Hwf H. apply drop_handle_result in H.
  eapply dropna_well_formed; eauto.
Qed.

Lemma iterrows_length df : List.length (iterrows df) = List.length (index df).
Proof.
  unfold iterrows. generalize (map (fun s => cells (data s)) (columns df)).
  induction (index df) as [|i idx IH]; intros cols; simpl; trivial.
  now rewrite IH.
Qed.

Lemma series_take_all_true mask s :
  Forall (fun b => b = true) mask ->
  List.length (cells (data s)) <= List.length mask ->
  series_take mask s = s.
Proof.
  intros Hall Hlen. destruct s as [l [v|v]]; unfold series_take; simpl in *.
  - rewrite length_map in Hlen. now rewrite take_all_true.
  - now rewrite take_all_true.
Qed.

Lemma filter_twice {A} (f : A -> bool) (l : list A) :
  filter f (filter f l) = filter f l.
Proof.
  induction l as [|x l IH]; simpl; trivial.
  destruct (f x) eqn:E; simpl; rewrite ?E, IH; trivial.
Qed.

Lemma kept_mask_of_filter {A} (g : A -> list (option scalar)) thresh (l : list A) :
  Forall (fun b => b = true)
         (map (kept thresh) (map g (filter (fun x => kept thresh (g x)) l))).
Proof.
  rewrite map_map. apply Forall_map. apply Forall_forall.
  intros x Hx. apply filter_In in Hx. tauto.
Qed.

Lemma dropna_idempotent axis thresh df df1 :
  well_formed df ->
  pd.dropna axis thresh df = inr df1 ->
  pd.dropna axis thresh df1 = inr df1.
Proof.
  intros Hwf H.
  pose proof (dropna_well_formed axis thresh df df1 Hwf H) as [Hlen1 _].
  destruct Hwf as [Hlen _].
  revert H. unfold pd.dropna.
  destruct (axis =? 0)%Z; [|destruct (axis =? 1)%Z; [|discriminate]];
    intros H; injection H as H; f_equal.
  - assert (Hrows : iterrows df1
                    = filter (fun r => kept thresh (snd r)) (iterrows df)).
    { rewrite <- H. rewrite iterrows_dropna_rows by assumption.
      rewrite keep_mask_kept. apply take_compose_filter. }
    set (mask1 := pd.keep_mask thresh (map snd (iterrows df1))).
    assert (Hall : Forall (fun b => b = true) mask1).
    { unfold mask1. rewrite keep_mask_kept, Hrows. apply kept_mask_of_filter. }
    assert (Hmask : List.length mask1 = List.length (index df1)).
    { unfold mask1. rewrite keep_mask_kept, !length_map. apply iterrows_length. }
    destruct df1 as [idx1 cols1]. simpl in *. f_equal.
    + apply take_all_true; trivial. lia.
    + transitivity (map (fun s : Series => s) cols1); [|apply map_id].
      apply map_ext_in. intros s Hs. apply series_take_all_true; trivial.
      rewrite Forall_forall in Hlen1. rewrite (Hlen1 s Hs). lia.
  - assert (Hcols : columns df1
                    = filter (fun s => kept thresh (cells (data s))) (columns df)).
    { rewrite <- H. simpl. rewrite keep_mask_kept. apply take_compose_filter. }
    destruct df1 as [idx1 cols1]. simpl in *. f_equal.
    rewrite keep_mask_kept.
    rewrite (take_compose_filter (fun s => cells (data s)) (kept thresh) cols1).
    rewrite Hcols. apply filter_twice.
Qed.

(** X2. The Drop strategy is idempotent: applied to its own result, for the
    same axis and threshold, it returns that result unchanged and logs the
    same two records. *)
Theorem drop_idempotent
        (s : DropMissingValuesStrategy.t) (df df1 : DataFrame) (log : list record) :
  well_formed df ->
  handle (Drop s) df = (log, inr df1) ->
  handle (Drop s) df1 = (log, inr df1).
Proof.
  intros Hwf H.
  pose proof (drop_handle_result s df log df1 H) as Hd.
  rewrite (drop_handle_log s df df1 Hd) in H. injection H as <-.
  apply drop_handle_log. eapply dropna_idempotent; eauto.
Qed.

(** ** Complete datasets *)

Lemma count_missing_zero {A} (l : list (option A)) :
  List.length (filter (fun c => negb (notna c)) l) = 0 <-> forallb notna l = true.
Proof.
  induction l as [|[x|] l IH]; simpl; try tauto.
  split; [discriminate|intros H; discriminate].
Qed.

Lemma count_missing_plus_present {A} (l : list (option A)) :
  List.length (filter (fun c => negb (notna c)) l) + notna_count l = List.length l.
Proof.
  unfold notna_count. induction l as [|[x|] l IH]; simpl; lia.
Qed.

Lemma reported_nothing_iff_complete df :
  filter (fun kv => 0 <? snd kv) (isnull_sum df) = [] <-> complete df.
Proof.
  unfold isnull_sum, complete. split.
  - intros H s Hs. apply count_missing_zero.
    destruct (List.length (filter (fun c => negb (notna c)) (cells (data s))))
      as [|n] eqn:E; trivial.
    exfalso.
    assert (Hin : In (label s, S n)
                     (filter (fun kv => 0 <? snd kv)
                        (map (fun s => (label s,
                                        List.length
                                          (filter (fun c => negb (notna c))
                                                  (cells (data s)))))
                             (columns df)))).
    { apply filter_In. split; trivial.
      apply in_map_iff. exists s. now rewrite E. }
    rewrite H in Hin. contradiction.
  - intros H. induction (columns df) as [|s cols IH]; simpl; trivial.
    rewrite (proj2 (count_missing_zero _) (H s (or_introl eq_refl))). simpl.
    apply IH. intros s' Hs'. apply H. now right.
Qed.

(** X3. What the missing-values report prints is the per-column count of
    missing cells restricted to the columns that have one: on a well-formed
    dataset a label is listed with count [n] exactly when a column of that
    label has [n >= 1] missing cells, [n] plus the column's non-missing count
    is the number of rows, and the printed Series is empty exactly when no
    cell of the dataset is missing. *)
Theorem identify_missing_values_lists_incomplete_columns (df : DataFrame) :
  well_formed df ->
  exists counts,
    SimpleMissingValuesAnalysis.identify_missing_values df
    = [ Text (String "010"%char "Counts of Missing Values by Column:");
        Counts counts ]
    /\ (forall k n,
           In (k, n) counts
           <-> exists s, In s (columns df) /\ label s = k
                         /\ 1 <= n
                         /\ n + notna_count (cells (data s))
                            = List.length (index df)
                         /\ ~ forallb notna (cells (data s)) = true)
    /\ (counts = [] <-> complete df).
Proof.
  intros [Hlen _]. eexists. split; [reflexivity|]. split.
  - intros k n. rewrite filter_In. unfold isnull_sum. rewrite in_map_iff.
    rewrite Forall_forall in Hlen. split.
    + intros [(s & Heq & Hs) Hpos]. injection Heq as <- <-.
      simpl in Hpos. apply Nat.ltb_lt in Hpos.
      exists s. split; trivial. split; trivial. split; [lia|]. split.
      * rewrite count_missing_plus_present. now apply Hlen.
      * intros Hc. apply count_missing_zero in Hc. lia.
    + intros (s & Hs & <- & Hn & Hsum & _).
      pose proof (count_missing_plus_present (cells (data s))) as Hc.
      rewrite (Hlen s Hs) in Hc.
      assert (n = List.length (filter (fun c => negb (notna c)) (cells (data s))))
        by lia.
      subst n. split.
      * exists s. split; trivial.
      * simpl. apply Nat.ltb_lt. lia.
  - apply reported_nothing_iff_complete.
Qed.

Lemma take_none {A} (lines : list (list (option scalar))) (l : list A) :
  take (pd.keep_mask None lines) l = [].
Proof.
  simpl. revert l. induction lines as [|r lines IH]; intros [|x l]; simpl; trivial.
Qed.

(** X4. The Drop strategy without a threshold drops everything, whatever the
    dataset holds: on axis 0 it returns the columns without any row (labels
    kept, every column empty), on axis 1 the row index without any column. In
    particular no cell of the result is missing and the missing-values report
    run on it prints an empty Series. *)
Theorem drop_without_threshold_drops_everything (df : DataFrame) :
  (exists log df',
      handle (Drop (DropMissingValuesStrategy.init (Some 0%Z) None)) df
      = (log, inr df')
      /\ index df' = []
      /\ labels df' = labels df
      /\ (forall s, In s (columns df') -> cells (data s) = [])
      /\ SimpleMissingValuesAnalysis.identify_missing_values df'
         = [ Text (String "010"%char "Counts of Missing Values by Column:");
             Counts [] ])
  /\ (exists log df',
      handle (Drop (DropMissingValuesStrategy.init (Some 1%Z) None)) df
      = (log, inr df')
      /\ index df' = index df
      /\ columns df' = []
      /\ SimpleMissingValuesAnalysis.identify_missing_values df'
         = [ Text (String "010"%char "Counts of Missing Values by Column:");
             Counts [] ]).
Proof.
  split.
  - destruct (drop_handle_rows_any None df) as (log & df' & H & Hi & Hc).
    exists log, df'. split; [exact H|].
    rewrite take_none in Hi.
    assert (Hempty : forall s, In s (columns df') -> cells (data s) = []).
    { intros s Hs. rewrite Hc in Hs. apply in_map_iff in Hs.
      destruct Hs as (s0 & <- & _). simpl.
      rewrite cells_values_take. apply take_none. }
    split; [exact Hi|]. split; [unfold labels; rewrite Hc; apply labels_series_take|].
    split; [exact Hempty|].
    unfold SimpleMissingValuesAnalysis.identify_missing_values.
    rewrite (proj2 (reported_nothing_iff_complete df')); trivial.
    intros s Hs. now rewrite (Hempty s Hs).
  - destruct (drop_handle_columns None df) as (log & df' & H & Hi & Hc).
    exists log, df'. split; [exact H|]. split; [exact Hi|].
    rewrite take_none in Hc. split; [exact Hc|].
    unfold SimpleMissingValuesAnalysis.identify_missing_values.
    rewrite (proj2 (reported_nothing_iff_complete df')); trivial.
    intros s Hs. rewrite Hc in Hs. contradiction.
Qed.

Lemma dropna_all_kept axis thresh df :
  well_formed df ->
  axis = 0%Z \/ axis = 1%Z ->
  (forall r, In r (iterrows df) -> kept thresh (snd r) = true) ->
  (forall s, In s (columns df) -> kept thresh (cells (data s)) = true) ->
  pd.dropna axis thresh df = inr df.
Proof.
  intros [Hlen _] Haxis Hrows Hcols. unfold pd.dropna.
  destruct Haxis as [-> | ->]; simpl; f_equal; rewrite keep_mask_kept.
  - assert (Hall : Forall (fun b => b = true)
                          (map (kept thresh) (map snd (iterrows df)))).
    { rewrite map_map. apply Forall_map. apply Forall_forall. exact Hrows. }
    assert (Hmask : List.length (map (kept thresh) (map snd (iterrows df)))
                    = List.length (index df))
      by (rewrite !length_map; apply iterrows_length).
    destruct df as [idx cols]. simpl in *. f_equal.
    + apply take_all_true; trivial. lia.
    + transitivity (map (fun s : Series => s) cols); [|apply map_id].
      apply map_ext_in. intros s Hs. apply series_take_all_true; trivial.
      rewrite Forall_forall in Hlen. rewrite (Hlen s Hs). lia.
  - destruct df as [idx cols]. simpl in *. f_equal.
    apply take_all_true.
    + rewrite map_map. apply Forall_map. apply Forall_forall. exact Hcols.
    + rewrite !length_map. lia.
Qed.

(** X5. The Drop strategy (axis 0 or 1) with a threshold of zero or less
    leaves a well-formed dataset exactly as it is: every row and every column
    reaches the threshold. *)
Theorem drop_unchanged_for_nonpositive_threshold
        (s : DropMissingValuesStrategy.t) (df : DataFrame) (T : Z) :
  well_formed df ->
  DropMissingValuesStrategy.axis s = 0%Z \/ DropMissingValuesStrategy.axis s = 1%Z ->
  DropMissingValuesStrategy.threshold s = Some T ->
  (T <= 0)%Z ->
  exists log, handle (Drop s) df = (log, inr df).
Proof.
  intros Hwf Haxis HT Hle. eexists. apply drop_handle_log.
  rewrite HT. apply dropna_all_kept; trivial.
  - intros r Hr. simpl. apply Z.leb_le. lia.
  - intros s0 Hs0. simpl. apply Z.leb_le. lia.
Qed.

(** ** Fill: when the mode loop fails *)

Lemma present_nil_mode_nil (d : values) : pd.present (cells d) = [] -> pd.mode d = [].
Proof.
  destruct d as [v|v]; simpl.
  - rewrite present_map. intros H. apply map_eq_nil in H. now rewrite H.
  - intros H. rewrite H. reflexivity.
Qed.

Lemma mode_nil_iff (d : values) :
  pd.mode d = [] <-> forall x, ~ In (Some x) (cells d).
Proof.
  split.
  - intros Hm x Hx. apply in_present in Hx.
    destruct (pd.present (cells d)) as [|y p] eqn:E; [contradiction|].
    apply (mode_not_nil d); [rewrite E; discriminate|exact Hm].
  - intros H. apply present_nil_mode_nil.
    destruct (pd.present (cells d)) as [|y p] eqn:E; trivial.
    exfalso. apply (H y). apply in_present. rewrite E. now left.
Qed.

(** The loop stops with IndexError at the first column without a mode. *)
Lemma fill_mode_loop_fails i (rest done cols : list Series) :
  cols = done ++ rest ->
  NoDup (map label cols) ->
  (exists s, In s rest /\ pd.mode (data s) = []) ->
  FillMissingValuesStrategy.fill_mode
    {| index := i; columns := cols |} (map label rest)
    {| index := i; columns := map fill_mode_column done ++ rest |}
  = inl (IndexError "single positional indexer is out-of-bounds").
Proof.
  revert done. induction rest as [|s rest IH]; intros done Hcols Hnd (s0 & Hin & Hs0).
  - contradiction.
  - simpl map. simpl FillMissingValuesStrategy.fill_mode.
    assert (Hnd' : NoDup (map label (map fill_mode_column done ++ s :: rest))).
    { rewrite map_app, fill_mode_column_labels, <- map_app. now rewrite <- Hcols. }
    unfold pd.getitem at 1. simpl columns.
    rewrite (find_has_label _ s Hnd') by apply in_elt.
    simpl ebind. unfold pd.getitem at 1. simpl columns.
    rewrite (find_has_label cols s Hnd) by (subst cols; apply in_elt).
    simpl ebind.
    destruct (pd.mode (data s)) as [|m ms] eqn:Em; [reflexivity|].
    simpl ebind.
    rewrite setitem_middle by assumption.
    assert (Hfs : {| label := label s; data := pd.fillna_values (Some m) (data s) |}
                  = fill_mode_column s).
    { unfold fill_mode_column. now rewrite Em. }
    rewrite Hfs.
    specialize (IH (done ++ [s])).
    rewrite map_app in IH. simpl in IH. rewrite <- !app_assoc in IH. simpl in IH.
    apply IH; trivial.
    destruct Hin as [<-|Hin]; [congruence|]. now exists s0.
Qed.

Lemma handle_fill_mode_fails df :
  NoDup (labels df) ->
  (exists s, In s (columns df) /\ pd.mode (data s) = []) ->
  handle (Fill (FillMissingValuesStrategy.init (Some "mode") None)) df
  = ([(INFO, "Filling missing values using method: mode")],
     inl (IndexError "single positional indexer is out-of-bounds")).
Proof.
  intros Hnd Hbad. destruct df as [i cols].
  simpl. unfold FillMissingValuesStrategy.handle. simpl.
  unfold labels. simpl columns.
  pose proof (fill_mode_loop_fails i cols [] cols eq_refl Hnd Hbad) as Hloop.
  simpl in Hloop. now rewrite Hloop.
Qed.

Lemma some_mode_nil_dec (cols : list Series) :
  (exists s, In s cols /\ pd.mode (data s) = [])
  \/ (forall s, In s cols -> pd.mode (data s) <> []).
Proof.
  induction cols as [|s cols [(s0 & Hin & H0)|IH]].
  - right. intros s [].
  - left. exists s0. split; trivial. now right.
  - destruct (pd.mode (data s)) as [|m ms] eqn:E.
    + left. exists s. split; trivial. now left.
    + right. intros s' [<-|Hs']; [rewrite E; discriminate|now apply IH].
Qed.

(** X6. The mode fill on a well-formed dataset raises exactly when some
    column has no non-missing cell (in particular on any dataset with a column
    and no row): it then stops with IndexError after its first log record.
    Otherwise it returns a dataset. *)
Theorem fill_mode_raises_iff_column_without_value (df : DataFrame) :
  well_formed df ->
  ((exists s, In s (columns df) /\ forall x, ~ In (Some x) (cells (data s)))
   <-> handle (Fill (FillMissingValuesStrategy.init (Some "mode") None)) df
       = ([(INFO, "Filling missing values using method: mode")],
          inl (IndexError "single positional indexer is out-of-bounds")))
  /\ ((forall s, In s (columns df) -> exists x, In (Some x) (cells (data s)))
      <-> exists log df',
          handle (Fill (FillMissingValuesStrategy.init (Some "mode") None)) df
          = (log, inr df')).
Proof.
  intros [_ Hnd].
  destruct (some_mode_nil_dec (columns df)) as [Hbad|Hgood].
  - pose proof (handle_fill_mode_fails df Hnd Hbad) as Hf.
    destruct Hbad as (s & Hin & Hs). split; split.
    + intros _. exact Hf.
    + intros _. exists s. split; trivial. now apply mode_nil_iff.
    + intros Hall. destruct (Hall s Hin) as (x & Hx).
      exfalso. revert Hx. now apply mode_nil_iff.
    + intros (log & df' & H). rewrite Hf in H. discriminate.
  - pose proof (handle_fill_mode df Hnd Hgood) as Hok. split; split.
    + intros (s & Hin & Hs). exfalso. apply (Hgood s Hin). now apply mode_nil_iff.
    + intros H. rewrite Hok in H. discriminate.
    + intros _. eauto.
    + intros _ s Hin. specialize (Hgood s Hin).
      destruct (pd.mode (data s)) as [|m ms] eqn:E; [congruence|].
      exists m. apply (mode_most_frequent (data s) m). rewrite E. now left.
Qed.

(** ** Fill: what a completed fill is *)

Lemma handle_fill_result_iff method fill_value df :
  NoDup (labels df) ->
  forall log df',
  handle (Fill {| FillMissingValuesStrategy.method := method;
                  FillMissingValuesStrategy.fill_value := fill_value |}) df
  = (log, inr df')
  <-> (log = fill_log method
       /\ df' = {| index := index df;
                   columns := map (filled_column method fill_value) (columns df) |}
       /\ (method = "mode" -> forall s, In s (columns df) -> pd.mode (data s) <> [])
       /\ (method = "constant" -> fill_value <> None)).
Proof.
  intros Hnd log df'.
  unfold filled_column, fill_log.
  destruct (String.eqb_spec method "mean") as [->|Hmean].
  { change (handle _ df) with
      (handle (Fill (FillMissingValuesStrategy.init (Some "mean") None)) df).
    rewrite (handle_fill_mean df Hnd). simpl. split.
    - intros H. injection H as <- <-. repeat split; discriminate.
    - intros (-> & -> & _). reflexivity. }
  destruct (String.eqb_spec method "median") as [->|Hmedian].
  { change (handle _ df) with
      (handle (Fill (FillMissingValuesStrategy.init (Some "median") None)) df).
    rewrite (handle_fill_median df Hnd). simpl. split.
    - intros H. injection H as <- <-. repeat split; discriminate.
    - intros (-> & -> & _). reflexivity. }
  destruct (String.eqb_spec method "mode") as [->|Hmode].
  { change (handle _ df) with
      (handle (Fill (FillMissingValuesStrategy.init (Some "mode") None)) df).
    destruct (some_mode_nil_dec (columns df)) as [Hbad|Hgood].
    - rewrite (handle_fill_mode_fails df Hnd Hbad). split; [discriminate|].
      intros (_ & _ & Hall & _). destruct Hbad as (s & Hin & Hs).
      exfalso. now apply (Hall eq_refl s Hin).
    - rewrite (handle_fill_mode df Hnd Hgood). simpl. split.
      + intros H. injection H as <- <-. repeat split; trivial; discriminate.
      + intros (-> & -> & _). reflexivity. }
  destruct (String.eqb_spec method "constant") as [->|Hconstant].
  { simpl. unfold FillMissingValuesStrategy.handle. simpl.
    destruct fill_value as [x|]; simpl.
    - split.
      + intros H. injection H as <- <-. repeat split; discriminate.
      + intros (-> & -> & _). reflexivity.
    - split; [discriminate|]. intros (_ & _ & _ & H). now contradiction H. }
  simpl. unfold FillMissingValuesStrategy.handle. simpl.
  rewrite (proj2 (String.eqb_neq _ _) Hmean), (proj2 (String.eqb_neq _ _) Hmedian),
    (proj2 (String.eqb_neq _ _) Hmode), (proj2 (String.eqb_neq _ _) Hconstant).
  simpl. rewrite map_id. destruct df as [i cols]. simpl. split.
  - intros H. injection H as <- <-. repeat split; congruence.
  - intros (-> & -> & _). reflexivity.
Qed.

Lemma cells_fill_number (o : option Q) (v : list (option Q)) :
  map (option_map Num) (map (pd.fill o) v)
  = map (pd.fill (option_map Num o)) (map (option_map Num) v).
Proof. rewrite !map_map. apply map_ext. now intros [x|]. Qed.

Lemma fill_complete {A} (a : option A) (l : list (option A)) :
  forallb notna l = true -> map (pd.fill a) l = l.
Proof.
  induction l as [|[x|] l IH]; simpl; trivial; [|discriminate].
  intros H. now rewrite IH.
Qed.

Lemma notna_option_map {A B} (f : A -> B) (l : list (option A)) :
  forallb notna (map (option_map f) l) = forallb notna l.
Proof. induction l as [|[x|] l IH]; simpl; trivial. Qed.

Lemma cells_fillna_values (x : scalar) (d : values) :
  cells (pd.fillna_values (Some x) d) = map (pd.fill (Some x)) (cells d).
Proof.
  destruct d as [v|v]; simpl; trivial.
  destruct x as [q|t]; simpl.
  - apply (cells_fill_number (Some q)).
  - destruct (forallb notna v) eqn:E; simpl; trivial.
    rewrite fill_complete; trivial. now rewrite notna_option_map.
Qed.

Lemma filled_column_label method fill_value s :
  label (filled_column method fill_value s) = label s.
Proof.
  unfold filled_column.
  destruct (String.eqb method "mean"); [apply fill_column_label|].
  destruct (String.eqb method "median"); [apply fill_column_label|].
  destruct (String.eqb method "mode"); [apply fill_mode_column_label|].
  destruct (String.eqb method "constant"); trivial.
  now destruct fill_value.
Qed.

Lemma fill_column_cells stat s :
  exists v, cells (data (fill_column stat s)) = map (pd.fill v) (cells (data s)).
Proof.
  unfold fill_column. destruct (data s) as [c|c] eqn:E; simpl.
  - exists (option_map Num (stat c)). apply cells_fill_number.
  - exists None. now rewrite E, fill_none.
Qed.

Lemma filled_column_cells method fill_value s :
  exists v, cells (data (filled_column method fill_value s))
            = map (pd.fill v) (cells (data s)).
Proof.
  unfold filled_column.
  destruct (String.eqb method "mean"); [apply fill_column_cells|].
  destruct (String.eqb method "median"); [apply fill_column_cells|].
  destruct (String.eqb method "mode").
  { unfold fill_mode_column. destruct (pd.mode (data s)) as [|m ms] eqn:E.
    - exists None. now rewrite fill_none.
    - exists (Some m). simpl. apply cells_fillna_mode. rewrite E. now left. }
  destruct (String.eqb method "constant");
    [destruct fill_value as [x|]|]; try (exists None; now rewrite fill_none).
  exists (Some x). simpl. apply cells_fillna_values.
Qed.

(** X7. Whatever the method and the fill literal, a Fill that returns keeps
    the shape of a well-formed dataset and only writes into missing cells: the
    row index and the column labels are unchanged, the result is well-formed,
    and each column of the result is the input column with all its missing
    cells replaced by one value (or left missing). No present cell is ever
    changed. *)
Theorem fill_keeps_shape_and_present_cells
        (s : FillMissingValuesStrategy.t) (df df' : DataFrame) (log : list record) :
  well_formed df ->
  handle (Fill s) df = (log, inr df') ->
  index df' = index df
  /\ well_formed df'
  /\ Forall2 (fun c c' =>
                label c' = label c
                /\ exists v, cells (data c') = map (pd.fill v) (cells (data c)))
             (columns df) (columns df').
Proof.
  intros [Hlen Hnd] H. destruct s as [method fill_value].
  apply (handle_fill_result_iff method fill_value df Hnd) in H.
  destruct H as (_ & -> & _). simpl. split; trivial. split.
  - split; simpl.
    + rewrite Forall_map. eapply Forall_impl; [|exact Hlen].
      intros c Hc. simpl.
      destruct (filled_column_cells method fill_value c) as (v & ->).
      now rewrite length_map.
    + unfold labels in *. simpl. rewrite map_map.
      rewrite (map_ext _ label); trivial.
      intros c. apply filled_column_label.
  - apply Forall2_map_r. intros c _. split.
    + apply filled_column_label.
    + apply filled_column_cells.
Qed.

Lemma fill_some_complete {A} (x : A) (l : list (option A)) :
  forallb notna (map (pd.fill (Some x)) l) = true.
Proof. induction l as [|[y|] l IH]; simpl; trivial. Qed.

Lemma fillna_values_complete (v : option scalar) (d : values) :
  forallb notna (cells d) = true -> pd.fillna_values v d = d.
Proof.
  destruct d as [c|c]; simpl.
  - rewrite notna_option_map. intros Hc.
    destruct v as [[q|t]|]; trivial.
    + now rewrite fill_complete.
    + now rewrite Hc.
  - intros Hc. now rewrite fill_complete.
Qed.

(** X8. The constant fill with a literal never raises and replaces every
    missing cell of every column by the literal: present cells, labels and
    row index are unchanged and no cell of the result is missing. *)
Theorem fill_constant_literal_fills_every_missing_cell (x : scalar) (df : DataFrame) :
  exists df',
    handle (Fill (FillMissingValuesStrategy.init (Some "constant") (Some x))) df
    = ([(INFO, "Filling missing values using method: constant");
        (INFO, "Missing values filled.")], inr df')
    /\ index df' = index df
    /\ Forall2 (fun c c' =>
                  label c' = label c
                  /\ cells (data c') = map (pd.fill (Some x)) (cells (data c)))
               (columns df) (columns df')
    /\ complete df'.
Proof.
  eexists. split; [reflexivity|]. split; [reflexivity|]. split.
  - simpl. apply Forall2_map_r. intros c _. split; trivial.
    simpl. apply cells_fillna_values.
  - intros c Hc. simpl in Hc. apply in_map_iff in Hc.
    destruct Hc as (c0 & <- & _). simpl.
    rewrite cells_fillna_values. apply fill_some_complete.
Qed.

Lemma fill_mode_column_complete s :
  pd.mode (data s) <> [] ->
  forallb notna (cells (data (fill_mode_column s))) = true.
Proof.
  unfold fill_mode_column. destruct (pd.mode (data s)) as [|m ms] eqn:E;
    [congruence|]. intros _. simpl.
  rewrite cells_fillna_mode by (rewrite E; now left).
  apply fill_some_complete.
Qed.

Lemma fill_mode_column_idempotent s :
  fill_mode_column (fill_mode_column s) = fill_mode_column s.
Proof.
  destruct (pd.mode (data s)) as [|m ms] eqn:E.
  - unfold fill_mode_column. rewrite E. now rewrite E.
  - assert (Hc : forallb notna (cells (data (fill_mode_column s))) = true)
      by (apply fill_mode_column_complete; congruence).
    unfold fill_mode_column at 1.
    destruct (pd.mode (data (fill_mode_column s))); trivial.
    rewrite fillna_values_complete by assumption.
    now destruct (fill_mode_column s).
Qed.

Lemma fill_mode_column_keeps_mode s :
  pd.mode (data s) <> [] -> pd.mode (data (fill_mode_column s)) <> [].
Proof.
  intros Hm. unfold fill_mode_column.
  destruct (pd.mode (data s)) as [|m ms] eqn:E; [congruence|]. simpl.
  intros Hnil. revert Hnil. rewrite mode_nil_iff. intros Hnone.
  apply (Hnone m). rewrite cells_fillna_mode by (rewrite E; now left).
  assert (Hin : In (Some m) (cells (data s)))
    by (apply (mode_most_frequent (data s) m); rewrite E; now left).
  apply in_map_iff. exists (Some m). split; trivial.
Qed.

Lemma filled_column_idempotent method fill_value s :
  filled_column method fill_value (filled_column method fill_value s)
  = filled_column method fill_value s.
Proof.
  unfold filled_column.
  destruct (String.eqb method "mean"); [apply fill_column_idempotent|].
  destruct (String.eqb method "median"); [apply fill_column_idempotent|].
  destruct (String.eqb method "mode"); [apply fill_mode_column_idempotent|].
  destruct (String.eqb method "constant"); trivial.
  destruct fill_value as [x|]; trivial. simpl. f_equal.
  apply fillna_values_complete. rewrite cells_fillna_values.
  apply fill_some_complete.
Qed.

(** X9. Every fill method is idempotent on a well-formed dataset: when a Fill
    returns a dataset, the same Fill applied to that dataset returns it
    unchanged, with the same log (mean, median, mode, constant with a
    literal, and the no-op of an unknown method alike). *)
Theorem fill_idempotent
        (s : FillMissingValuesStrategy.t) (df df1 : DataFrame) (log : list record) :
  well_formed df ->
  handle (Fill s) df = (log, inr df1) ->
  handle (Fill s) df1 = (log, inr df1).
Proof.
  intros [_ Hnd] H. destruct s as [method fill_value].
  apply (handle_fill_result_iff method fill_value df Hnd) in H.
  destruct H as (-> & -> & Hmode & Hconst).
  apply handle_fill_result_iff.
  - unfold labels in *. simpl. rewrite map_map.
    rewrite (map_ext _ label); trivial. intros c. apply filled_column_label.
  - split; trivial. simpl. split; [|split; trivial].
    + f_equal. rewrite map_map. apply map_ext. intros c.
      symmetry. apply filled_column_idempotent.
    + intros -> c Hc. apply in_map_iff in Hc. destruct Hc as (c0 & <- & Hc0).
      unfold filled_column. simpl.
      apply fill_mode_column_keeps_mode. now apply Hmode.
Qed.




Lemma filled_columns_well_formed method fill_value df :
  well_formed df ->
  well_formed {| index := index df;
                 columns := map (filled_column method fill_value) (columns df) |}.
Proof.
  intros [Hlen Hnd]. split; simpl.
  - rewrite Forall_map. eapply Forall_impl; [|exact Hlen].
    intros c Hc. simpl.
    destruct (filled_column_cells method fill_value c) as (v & ->).
    now rewrite length_map.
  - unfold labels in *. simpl. rewrite map_map.
    rewrite (map_ext _ label); trivial.
    intros c. apply filled_column_label.
Qed.

(** X11. The cleaning step cannot fail for "drop", "mean" and "median": on a
    well-formed dataset it returns a well-formed dataset with the same column
    labels. (Only "mode", "constant" and unknown names can raise.) *)
Theorem step_returns_for_drop_mean_median (df : DataFrame) (strategy : string) :
  well_formed df ->
  In strategy ["drop"; "mean"; "median"] ->
  exists log df',
    handle_missing_values_step df strategy = (log, inr df')
    /\ labels df' = labels df
    /\ well_formed df'.
Proof.
  intros Hwf Hin. simpl in Hin. destruct Hin as [<-|[<-|[<-|[]]]].
  - rewrite step_delegates_drop.
    destruct (drop_handle_rows None df (proj1 Hwf)) as (l & df' & H & Hl & _).
    rewrite (handle_missing_values_result _ df l (inr df') H).
    eexists. exists df'. split; [reflexivity|]. split; trivial.
    apply drop_handle_result in H. eapply dropna_well_formed; eauto.
  - rewrite (step_delegates_fill df "mean") by (simpl; tauto).
    rewrite (handle_missing_values_result _ df _ _ (handle_fill_mean df (proj2 Hwf))).
    eexists. eexists. split; [reflexivity|]. split.
    + unfold labels. simpl. apply fill_column_labels.
    + apply (filled_columns_well_formed "mean" None df Hwf).
  - rewrite (step_delegates_fill df "median") by (simpl; tauto).
    rewrite (handle_missing_values_result _ df _ _
               (handle_fill_median df (proj2 Hwf))).
    eexists. eexists. split; [reflexivity|]. split.
    + unfold labels. simpl. apply fill_column_labels.
    + apply (filled_columns_well_formed "median" None df Hwf).
Qed.

(** * Further properties of the ingestion *)

(** ** Paths and lookups *)

Lemma path_eqb_eq (p q : list string) : path_eqb p q = true <-> p = q.
Proof.
  revert q. induction p as [|a p IH]; intros [|b q]; simpl;
    try (split; [discriminate|discriminate]); [tauto|].
  rewrite andb_true_iff, String.eqb_eq, IH.
  split; [intros [-> ->]; reflexivity|intros H; injection H; auto].
Qed.

Lemma path_eqb_refl (p : list string) : path_eqb p p = true.
Proof. now apply path_eqb_eq. Qed.

Lemma path_eqb_sym (p q : list string) : path_eqb p q = path_eqb q p.
Proof.
  destruct (path_eqb p q) eqn:E.
  - apply path_eqb_eq in E. subst. symmetry. apply path_eqb_refl.
  - destruct (path_eqb q p) eqn:E'; trivial.
    apply path_eqb_eq in E'. subst. now rewrite path_eqb_refl in E.
Qed.

Lemma lookup_cons (p : list string) (e : list string * kind) (t : tree) :
  lookup p (e :: t) = if path_eqb (fst e) p then Some (snd e) else lookup p t.
Proof. unfold lookup. simpl. now destruct (path_eqb (fst e) p). Qed.

Lemma lookup_app (p : list string) (t : tree) (e : list string * kind) :
  lookup p (t ++ [e])
  = match lookup p t with
    | Some k => Some k
    | None => if path_eqb (fst e) p then Some (snd e) else None
    end.
Proof.
  induction t as [|x t IH]; simpl app; rewrite ?lookup_cons.
  - reflexivity.
  - destruct (path_eqb (fst x) p); [reflexivity|exact IH].
Qed.

Lemma lookup_replay (o : op) (p : list string) (t : tree) :
  lookup p (map (replay o) t) = option_map (rekind o p) (lookup p t).
Proof.
  induction t as [|x t IH]; simpl map; rewrite ?lookup_cons; [reflexivity|].
  unfold replay at 1 2. simpl fst. simpl snd.
  destruct (path_eqb (fst x) p) eqn:E; [|exact IH].
  apply path_eqb_eq in E. now rewrite E.
Qed.

Lemma lookup_in (p : list string) (k : kind) (t : tree) :
  lookup p t = Some k -> In (p, k) t.
Proof.
  induction t as [|x t IH]; rewrite ?lookup_cons; [discriminate|].
  destruct (path_eqb (fst x) p) eqn:E.
  - apply path_eqb_eq in E. intros H. injection H as <-. left.
    rewrite <- E. now destruct x.
  - intros H. right. now apply IH.
Qed.

Lemma in_lookup (e : list string * kind) (t : tree) :
  In e t -> lookup (fst e) t <> None.
Proof.
  induction t as [|x t IH]; [contradiction|].
  rewrite lookup_cons. intros [->|Hin].
  - now rewrite path_eqb_refl.
  - destruct (path_eqb (fst x) (fst e)); [discriminate|now apply IH].
Qed.

Lemma replay_mkdir (q : list string) (refused : exn) (e : list string * kind) :
  replay (Mkdir q refused) e = e.
Proof. now destruct e. Qed.

Lemma map_replay_mkdir (q : list string) (refused : exn) (t : tree) :
  map (replay (Mkdir q refused)) t = t.
Proof.
  rewrite <- (map_id t) at 2. apply map_ext. apply replay_mkdir.
Qed.

Lemma replay_fst (o : op) (e : list string * kind) : fst (replay o e) = fst e.
Proof. reflexivity. Qed.

Lemma replay_all_fst (ops : list op) (e : list string * kind) :
  fst (replay_all ops e) = fst e.
Proof.
  unfold replay_all. revert e. induction ops as [|o ops IH]; intros e; simpl;
    [reflexivity|].
  now rewrite IH.
Qed.

Lemma replay_all_app (a b : list op) (e : list string * kind) :
  replay_all (a ++ b) e = replay_all b (replay_all a e).
Proof. unfold replay_all. apply fold_left_app. Qed.

(** ** One operation *)

(** A completed operation either finds its target in place, or appends it to
    a tree that did not hold it. *)
Lemma apply_op_cases (t t' : tree) (o : op) :
  apply_op t o = inr t' ->
  (settled t o /\ t' = map (replay o) t)
  \/ (exists k, lookup (target o) t = None
               /\ t' = t ++ [(target o, k)]
               /\ k = match o with
                      | Mkdir _ _ => Directory
                      | Write _ c => RegularFile c
                      end).
Proof.
  destruct o as [q refused|p c]; simpl.
  - destruct (lookup q t) as [[c0|]|] eqn:E; try discriminate.
    + intros H. injection H as <-. left. split; [reflexivity|].
      now rewrite map_replay_mkdir.
    + intros H. injection H as <-. right. exists Directory. auto.
  - destruct (lookup p t) as [[c0|]|] eqn:E; try discriminate.
    + intros H. injection H as <-. left. split; [now exists c0|reflexivity].
    + intros H. injection H as <-. right. exists (RegularFile c). auto.
Qed.

Lemma apply_op_settled_eq (t : tree) (o : op) :
  settled t o -> apply_op t o = inr (map (replay o) t).
Proof.
  destruct o as [q refused|p c]; simpl.
  - intros ->. fold (replay (Mkdir q refused)). now rewrite map_replay_mkdir.
  - intros [c0 ->]. reflexivity.
Qed.

Lemma settled_replay (o o' : op) (t : tree) :
  settled t o -> settled t o' -> settled (map (replay o) t) o'.
Proof.
  intros Ho Ho'.
  destruct o' as [q refused|p c]; simpl in *.
  - rewrite lookup_replay, Ho'. simpl.
    destruct o as [q' r'|p' c']; simpl in *; [reflexivity|].
    destruct (path_eqb q p') eqn:E; [|reflexivity].
    apply path_eqb_eq in E. subst p'. destruct Ho as [c0 Ho]. congruence.
  - destruct Ho' as [c0 Ho']. rewrite lookup_replay, Ho'. simpl.
    destruct o as [q' r'|p' c']; simpl; [now exists c0|].
    destruct (path_eqb p p'); eauto.
Qed.

Lemma apply_op_settles (t t' : tree) (o : op) :
  apply_op t o = inr t' -> settled t' o.
Proof.
  intros H. destruct (apply_op_cases _ _ _ H) as [[Hs ->]|(k & Hn & -> & Hk)].
  - now apply settled_replay.
  - destruct o as [q refused|p c]; simpl in *; rewrite lookup_app, Hn; simpl;
      rewrite path_eqb_refl; subst k; eauto.
Qed.

Lemma apply_op_keeps_settled (t t' : tree) (o o' : op) :
  apply_op t o = inr t' -> settled t o' -> settled t' o'.
Proof.
  intros H Ho'.
  destruct (apply_op_cases _ _ _ H) as [[Hs ->]|(k & Hn & -> & Hk)].
  - now apply settled_replay.
  - destruct o' as [q refused|p c]; simpl in *.
    + now rewrite lookup_app, Ho'.
    + destruct Ho' as [c0 Ho']. exists c0. now rewrite lookup_app, Ho'.
Qed.

(** ** A sequence of operations *)

Lemma run_ops_app (a b : list op) (t : tree) :
  run_ops (a ++ b) t
  = match run_ops a t with
    | (t', inr _) => run_ops b t'
    | (t', inl e) => (t', inl e)
    end.
Proof.
  revert t. induction a as [|o a IH]; intros t; simpl; [reflexivity|].
  destruct (apply_op t o) as [e|t']; [reflexivity|apply IH].
Qed.

(** A refused extraction stops in the tree the completed operations built. *)
Lemma run_ops_refused (ops : list op) (t T : tree) (e : exn) :
  run_ops ops t = (T, inl e) ->
  exists done o rest,
    ops = done ++ o :: rest
    /\ run_ops done t = (T, inr tt)
    /\ apply_op T o = inl e.
Proof.
  revert t. induction ops as [|o ops IH]; intros t; simpl; [discriminate|].
  destruct (apply_op t o) as [e'|t'] eqn:E.
  - intros H. injection H as <- <-. exists [], o, ops. auto.
  - intros H. destruct (IH _ H) as (done & o' & rest & -> & Hd & Ho).
    exists (o :: done), o', rest. simpl. rewrite E. auto.
Qed.

Lemma run_ops_keeps_settled (ops : list op) (t T : tree) (o : op) :
  run_ops ops t = (T, inr tt) -> settled t o -> settled T o.
Proof.
  revert t. induction ops as [|o' ops IH]; intros t; simpl.
  - intros H. now injection H as <-.
  - destruct (apply_op t o') as [e'|t'] eqn:E; [discriminate|].
    intros H Hs. apply (IH _ H). eapply apply_op_keeps_settled; eauto.
Qed.

Lemma run_ops_settles (ops : list op) (t T : tree) :
  run_ops ops t = (T, inr tt) -> forall o, In o ops -> settled T o.
Proof.
  revert t. induction ops as [|o' ops IH]; intros t; simpl; [contradiction|].
  destruct (apply_op t o') as [e'|t'] eqn:E; [discriminate|].
  intros H o [<-|Hin].
  - eapply run_ops_keeps_settled; eauto. eapply apply_op_settles; eauto.
  - eapply IH; eauto.
Qed.

(** In a tree where all of them are settled, the operations complete and
    only rewrite contents. *)
Lemma run_ops_settled (ops : list op) (t : tree) :
  (forall o, In o ops -> settled t o) ->
  run_ops ops t = (map (replay_all ops) t, inr tt).
Proof.
  revert t. induction ops as [|o ops IH]; intros t Hs; simpl.
  - unfold replay_all. simpl. now rewrite map_id.
  - rewrite apply_op_settled_eq by (apply Hs; now left).
    rewrite IH.
    + rewrite map_map. reflexivity.
    + intros o' Hin. apply settled_replay; apply Hs; simpl; auto.
Qed.

Lemma replay_other (o : op) (e : list string * kind) (t : tree) :
  In e t ->
  lookup (target o) t = None ->
  replay o e = e.
Proof.
  intros Hin Hn. destruct o as [q r|p c]; destruct e as [p' k]; unfold replay;
    simpl; [reflexivity|].
  destruct (path_eqb p' p) eqn:E; [|reflexivity].
  apply path_eqb_eq in E. subst p'.
  now apply in_lookup in Hin.
Qed.

Lemma replay_all_untouched (ops : list op) (T : tree) (p : list string)
      (k : kind) :
  (forall o, In o ops -> settled T o) ->
  lookup p T = None ->
  replay_all ops (p, k) = (p, k).
Proof.
  intros Hs Hn. unfold replay_all.
  induction ops as [|o ops IH]; simpl; [reflexivity|].
  assert (E : replay o (p, k) = (p, k)).
  { destruct o as [q r|p' c]; unfold replay; simpl; [reflexivity|].
    destruct (path_eqb p p') eqn:E; [|reflexivity].
    apply path_eqb_eq in E. subst p'.
    destruct (Hs (Write p c)) as [c0 H]; [now left|congruence]. }
  rewrite E. apply IH. intros o' Hin. apply Hs. now right.
Qed.

(** The tree a completed extraction leaves is a fixed point of rewriting
    the contents once more. *)
Lemma run_ops_fixed (ops : list op) (t T : tree) :
  run_ops ops t = (T, inr tt) ->
  forall e, In e T -> replay_all ops e = e.
Proof.
  revert T. induction ops as [|o ops IH] using rev_ind; intros T.
  - intros _ e _. reflexivity.
  - rewrite run_ops_app.
    destruct (run_ops ops t) as [T' [e'|[]]] eqn:Hrun; [discriminate|].
    simpl. destruct (apply_op T' o) as [e'|T''] eqn:Ho; [discriminate|].
    intros H. injection H as ->. intros e Hin.
    rewrite replay_all_app. unfold replay_all at 1. simpl.
    destruct (apply_op_cases _ _ _ Ho) as [[Hs ->]|(k & Hn & -> & Hk)].
    + apply in_map_iff in Hin. destruct Hin as (e0 & <- & Hin0).
      destruct o as [q r|p c].
      * rewrite !replay_mkdir. apply (IH _ eq_refl). exact Hin0.
      * destruct e0 as [p0 k0]. unfold replay at 2 3. simpl.
        destruct (path_eqb p0 p) eqn:E.
        -- pose proof (replay_all_fst ops (p0, RegularFile c)) as F.
           destruct (replay_all ops (p0, RegularFile c)) as [p1 k1].
           simpl in F. subst p1. unfold replay. simpl. now rewrite E.
        -- rewrite (IH _ eq_refl _ Hin0). unfold replay. simpl. now rewrite E.
    + apply in_app_iff in Hin. destruct Hin as [Hin|[<-|[]]].
      * rewrite (IH _ eq_refl _ Hin). eapply replay_other; eauto.
      * rewrite (replay_all_untouched ops T').
        -- destruct o as [q r|p c]; unfold replay; simpl; subst k;
             [reflexivity|now rewrite path_eqb_refl].
        -- eapply run_ops_settles; eauto.
        -- exact Hn.
Qed.

(** Extracting again into the tree an extraction left changes nothing and
    ends the same way. *)
Lemma run_ops_again (ops : list op) (t T : tree) (r : exn + unit) :
  run_ops ops t = (T, r) -> run_ops ops T = (T, r).
Proof.
  assert (Hok : forall ops t T,
             run_ops ops t = (T, inr tt) -> run_ops ops T = (T, inr tt)).
  { clear. intros ops t T H.
    rewrite run_ops_settled by (eapply run_ops_settles; eauto).
    replace (map (replay_all ops) T) with T; [reflexivity|].
    rewrite <- (map_id T) at 1. apply map_ext_in.
    intros e Hin. symmetry. eapply run_ops_fixed; eauto. }
  destruct r as [e|[]]; [|apply Hok].
  intros H. destruct (run_ops_refused _ _ _ _ H) as (done & o & rest & -> & Hd & Ho).
  rewrite run_ops_app, (Hok _ _ _ Hd). simpl. now rewrite Ho.
Qed.

Lemma extractall_archives (zip_ref : list member) (fs : FileSystem) :
  archives (fst (extractall zip_ref fs)) = archives fs.
Proof.
  unfold extractall. destruct zip_ref as [|m z]; [reflexivity|].
  now destruct (run_ops _ _).
Qed.

Lemma extractall_again (zip_ref : list member) (fs fs' : FileSystem)
      (r : exn + unit) :
  extractall zip_ref fs = (fs', r) -> extractall zip_ref fs' = (fs', r).
Proof.
  unfold extractall. destruct zip_ref as [|m z].
  - intros H. now injection H as <- <-.
  - destruct (run_ops _ _) as [T r'] eqn:Hrun.
    intros H. injection H as <- <-. cbn [extracted_data archives].
    now rewrite (run_ops_again _ _ _ _ Hrun).
Qed.

Lemma ZipFile_archives (fs fs' : FileSystem) (file_path : string) :
  archives fs' = archives fs -> ZipFile fs' file_path = ZipFile fs file_path.
Proof. unfold ZipFile. now intros ->. Qed.

(** ** Names in the staging directory *)

Lemma top_level_in (d : string) (t : tree) :
  In d (top_level t) <-> exists p, lookup (d :: p) t <> None.
Proof.
  unfold top_level. split.
  - intros H. apply unique_in in H. apply in_flat_map in H.
    destruct H as ([q k] & Hin & Hd). simpl in Hd.
    destruct q as [|d' q]; [contradiction|]. destruct Hd as [->|[]].
    exists q. exact (in_lookup _ _ Hin).
  - intros [p Hp]. destruct (lookup (d :: p) t) as [k|] eqn:E; [|congruence].
    apply lookup_in in E.
    destruct (unique_represents String.eqb String.eqb_refl
                (fun x y z Hxy Hyz =>
                   eq_trans (f_equal (fun s => String.eqb s z)
                                     (proj1 (String.eqb_eq x y) Hxy)) Hyz)
                d (flat_map (fun e : list string * kind =>
                               match fst e with [] => [] | d :: _ => [d] end) t))
      as (y & Hy & Hyd).
    + apply in_flat_map. exists (d :: p, k). split; [exact E|now left].
    + apply String.eqb_eq in Hyd. now subst y.
Qed.

Lemma apply_op_keeps_paths (t t' : tree) (o : op) (p : list string) :
  apply_op t o = inr t' -> lookup p t <> None -> lookup p t' <> None.
Proof.
  intros H Hp.
  destruct (apply_op_cases _ _ _ H) as [[Hs ->]|(k & Hn & -> & Hk)].
  - rewrite lookup_replay. now destruct (lookup p t).
  - rewrite lookup_app. now destruct (lookup p t).
Qed.

Lemma run_ops_keeps_paths (ops : list op) (t T : tree) (p : list string) :
  run_ops ops t = (T, inr tt) -> lookup p t <> None -> lookup p T <> None.
Proof.
  revert t. induction ops as [|o ops IH]; intros t; simpl.
  - intros H. now injection H as <-.
  - destruct (apply_op t o) as [e'|t'] eqn:E; [discriminate|].
    intros H Hp. apply (IH _ H). eapply apply_op_keeps_paths; eauto.
Qed.

(** The names listed before a completed extraction are listed after it. *)
Lemma run_ops_keeps_names (ops : list op) (t T : tree) (d : string) :
  run_ops ops t = (T, inr tt) -> In d (top_level t) -> In d (top_level T).
Proof.
  intros H Hd. apply top_level_in in Hd. destruct Hd as [p Hp].
  apply top_level_in. exists p. eapply run_ops_keeps_paths; eauto.
Qed.

(** A member at the top level of the archive is listed after a completed
    extraction, be it a file or a directory. *)
Lemma run_ops_lists_member (zip_ref : list member) (t T : tree) (m : member) :
  run_ops (flat_map ops_of zip_ref) t = (T, inr tt) ->
  In m zip_ref -> arcdirs m = [] -> In (arcname m) (top_level T).
Proof.
  intros H Hin Hd. apply top_level_in. exists [].
  assert (Ho : In (match content m with
                   | Some c => Write [arcname m] c
                   | None => Mkdir [arcname m]
                                   (FileExistsError (staged [arcname m]))
                   end) (flat_map ops_of zip_ref)).
  { apply in_flat_map. exists m. split; [exact Hin|].
    unfold ops_of. rewrite Hd. simpl. now left. }
  pose proof (run_ops_settles _ _ _ H _ Ho) as Hs.
  destruct (content m); simpl in Hs; [destruct Hs as [c0 Hs]|];
    rewrite Hs; discriminate.
Qed.

Lemma filter_two_distinct {A} (p : A -> bool) (l : list A) (a b : A) :
  In a l -> In b l -> p a = true -> p b = true -> a <> b ->
  2 <= List.length (filter p l).
Proof.
  intros Ha Hb Hpa Hpb Hne.
  assert (Ha' : In a (filter p l)) by (apply filter_In; tauto).
  assert (Hb' : In b (filter p l)) by (apply filter_In; tauto).
  destruct (filter p l) as [|x [|y fl]]; simpl in *;
    [contradiction|intuition congruence|lia].
Qed.

(** ** What extraction can add to the listing *)





(** ** The ingestor and the step *)

(** The ingestor past the opening of the archive: the file system is the one
    extraction left, whatever the outcome. *)
Lemma zip_ingest_opened
      (read_csv : FileSystem -> string -> exn + DataFrame)
      (fs fs' : FileSystem) (file_path : string) (zip_ref : list member)
      (r : exn + unit) :
  endswith file_path ".zip" = true ->
  ZipFile fs file_path = inr zip_ref ->
  extractall zip_ref fs = (fs', r) ->
  ZipDataIngestor_ingest read_csv fs file_path
  = (fs',
     match r with
     | inl e => inl e
     | inr _ =>
         match listdir fs' with
         | inl e => inl e
         | inr extracted_files =>
             let csv_files :=
               filter (fun f => endswith f ".csv") extracted_files in
             if List.length csv_files =? 0 then
               inl (FileNotFoundError "No CSV file found in the extracted data.")
             else if 1 <? List.length csv_files then
               inl (ValueError
                      "Multiple CSV files found. Please specify which one to use.")
             else read_csv fs' (path_join "extracted_data" (nth 0 csv_files ""))
         end
     end).
Proof.
  intros Hzip Hopen Hextract. unfold ZipDataIngestor_ingest.
  rewrite Hzip, Hopen, Hextract. simpl negb. cbv iota beta.
  destruct r as [e|u]; [reflexivity|].
  destruct (listdir fs') as [e|extracted_files]; [reflexivity|].
  cbv zeta.
  destruct (List.length (filter (fun f => endswith f ".csv") extracted_files) =? 0);
    [reflexivity|].
  now destruct (1 <? List.length (filter (fun f => endswith f ".csv")
                                         extracted_files)).
Qed.

Lemma data_ingestion_step_is_zip_ingest
      (read_csv : FileSystem -> string -> exn + DataFrame)
      (fs : FileSystem) (file_path : string) :
  data_ingestion_step read_csv fs file_path
  = ZipDataIngestor_ingest read_csv fs file_path.
Proof. reflexivity. Qed.

(** X12. The ingestion step never fails for lack of an ingestor: it always
    asks the factory for ".zip", which the factory resolves, so the step is
    the archive ingestor. And it returns a dataset only along one path: the
    file path ends in ".zip", the archive opens, extraction completes, the
    staging directory lists exactly one name ending in ".csv", and
    [read_csv] parsed that file into the returned dataset. *)
Theorem data_ingestion_step_success_inversion
        (read_csv : FileSystem -> string -> exn + DataFrame)
        (fs : FileSystem) (file_path : string) :
  DataIngestorFactory.get_data_ingestor ".zip" = inr ZipDataIngestor
  /\ data_ingestion_step read_csv fs file_path
     = ZipDataIngestor_ingest read_csv fs file_path
  /\ forall (fs' : FileSystem) (df : DataFrame),
      data_ingestion_step read_csv fs file_path = (fs', inr df) ->
      endswith file_path ".zip" = true
      /\ exists zip_ref extracted_files f,
          ZipFile fs file_path = inr zip_ref
          /\ extractall zip_ref fs = (fs', inr tt)
          /\ listdir fs' = inr extracted_files
          /\ filter (fun f => endswith f ".csv") extracted_files = [f]
          /\ read_csv fs' (path_join "extracted_data" f) = inr df.
Proof.
  split; [reflexivity|]. split; [reflexivity|].
  intros fs' df. rewrite data_ingestion_step_is_zip_ingest.
  destruct (endswith file_path ".zip") eqn:Hzip.
  - destruct (ZipFile fs file_path) as [e|zip_ref] eqn:Hopen.
    + unfold ZipDataIngestor_ingest. rewrite Hzip, Hopen. discriminate.
    + destruct (extractall zip_ref fs) as [fs1 r] eqn:Hextract.
      rewrite (zip_ingest_opened read_csv _ _ _ _ _ Hzip Hopen Hextract).
      destruct r as [e|[]]; [discriminate|].
      destruct (listdir fs1) as [e|extracted_files] eqn:Hlist; [discriminate|].
      cbv zeta.
      destruct (filter (fun f => endswith f ".csv") extracted_files)
        as [|f [|g csv_files]] eqn:Hcsv; simpl; try discriminate.
      intros H. injection H as <- Hread.
      split; [reflexivity|]. exists zip_ref, extracted_files, f. auto.
  - unfold ZipDataIngestor_ingest. rewrite Hzip. discriminate.
Qed.

(** X13. Ingesting the same path again, on the file system the first
    ingestion left behind, gives the same file system and the same result:
    extraction overwrites the files it wrote and adds nothing. *)
Theorem zip_ingest_repeatable
        (read_csv : FileSystem -> string -> exn + DataFrame)
        (fs : FileSystem) (file_path : string) :
  ZipDataIngestor_ingest read_csv
    (fst (ZipDataIngestor_ingest read_csv fs file_path)) file_path
  = ZipDataIngestor_ingest read_csv fs file_path.
Proof.
  destruct (endswith file_path ".zip") eqn:Hzip.
  - destruct (ZipFile fs file_path) as [e|zip_ref] eqn:Hopen.
    + assert (E : ZipDataIngestor_ingest read_csv fs file_path = (fs, inl e))
        by (unfold ZipDataIngestor_ingest; now rewrite Hzip, Hopen).
      rewrite E. exact E.
    + destruct (extractall zip_ref fs) as [fs' r] eqn:Hextract.
      rewrite (zip_ingest_opened read_csv _ _ _ _ _ Hzip Hopen Hextract).
      simpl fst.
      apply (zip_ingest_opened read_csv fs' fs' file_path zip_ref r Hzip).
      * rewrite <- Hopen. apply ZipFile_archives.
        pose proof (extractall_archives zip_ref fs) as A.
        now rewrite Hextract in A.
      * eapply extractall_again; eauto.
  - assert (E : ZipDataIngestor_ingest read_csv fs file_path
                = (fs, inl (ValueError "The provided file is not a .zip file.")))
      by (unfold ZipDataIngestor_ingest; now rewrite Hzip).
    rewrite E. exact E.
Qed.

(** X14. The staging directory is never cleaned, so a CSV file left there by
    an earlier run makes the ingestion of a sound archive fail: when the
    directory already lists a name ending in ".csv" and the archive brings,
    at its top level, a member of another name ending in ".csv", then once
    extraction completes the ingestor raises the "Multiple CSV files"
    ValueError, whatever else the archive holds. *)
Theorem zip_ingest_stale_csv_is_ambiguous
        (read_csv : FileSystem -> string -> exn + DataFrame)
        (fs fs' : FileSystem) (file_path : string) (zip_ref : list member)
        (old : list string) (stale : string) (m : member) :
  endswith file_path ".zip" = true ->
  ZipFile fs file_path = inr zip_ref ->
  extractall zip_ref fs = (fs', inr tt) ->
  listdir fs = inr old -> In stale old -> endswith stale ".csv" = true ->
  In m zip_ref -> arcdirs m = [] -> endswith (arcname m) ".csv" = true ->
  stale <> arcname m ->
  ZipDataIngestor_ingest read_csv fs file_path
  = (fs',
     inl (ValueError "Multiple CSV files found. Please specify which one to use.")).
Proof.
  intros Hzip Hopen Hextract Hold Hs Hscsv Hm Hd Hmcsv Hne.
  rewrite (zip_ingest_opened read_csv _ _ _ _ _ Hzip Hopen Hextract).
  f_equal.
  unfold listdir in Hold. destruct (extracted_data fs) as [t|] eqn:Ht;
    [|discriminate].
  injection Hold as <-.
  unfold extractall in Hextract. rewrite Ht in Hextract.
  destruct zip_ref as [|m0 z]; [contradiction|].
  destruct (run_ops (flat_map ops_of (m0 :: z)) t) as [T r] eqn:Hrun.
  injection Hextract as <- ->.
  unfold listdir. cbn [extracted_data]. cbv zeta.
  assert (Htwo : 2 <= List.length (filter (fun f => endswith f ".csv")
                                          (top_level T))).
  { apply (filter_two_distinct _ _ stale (arcname m)); trivial.
    - eapply run_ops_keeps_names; eauto.
    - eapply run_ops_lists_member; eauto. }
  destruct (Nat.eqb_spec
              (List.length (filter (fun f => endswith f ".csv") (top_level T))) 0)
    as [E|_]; [lia|].
  destruct (Nat.ltb_spec 1
              (List.length (filter (fun f => endswith f ".csv") (top_level T))))
    as [_|E]; [reflexivity|lia].
Qed.

(** X20. An archive without members extracts nothing, not even the staging
    directory: when that directory does not exist yet, listing it raises
    FileNotFoundError for the directory, and the ingestor passes that on
    instead of its own "No CSV file found". *)
Theorem zip_ingest_empty_archive_without_staging
        (read_csv : FileSystem -> string -> exn + DataFrame)
        (fs : FileSystem) (file_path : string) :
  endswith file_path ".zip" = true ->
  ZipFile fs file_path = inr [] ->
  extracted_data fs = None ->
  ZipDataIngestor_ingest read_csv fs file_path
  = (fs,
     inl (FileNotFoundError
            "[Errno 2] No such file or directory: 'extracted_data'")).
Proof.
  intros Hzip Hopen Hnone.
  rewrite (zip_ingest_opened read_csv fs fs file_path [] (inr tt) Hzip Hopen
                             eq_refl).
  unfold listdir. now rewrite Hnone.
Qed.


(** * Thresholds compose *)

Lemma take_take {A} (m1 m2 : list bool) (l : list A) :
  Forall2 (fun b1 b2 => b2 = true -> b1 = true) m1 m2 ->
  take (take m1 m2) (take m1 l) = take m2 l.
Proof.
  intros H. revert l. induction H as [|b1 b2 m1 m2 Hb _ IH]; intros l.
  - reflexivity.
  - destruct l as [|x l]; simpl.
    + destruct b1; simpl; [destruct b2|]; trivial. now destruct (take m1 m2).
    + destruct b1; simpl.
      * destruct b2; simpl; now rewrite IH.
      * destruct b2; [now specialize (Hb eq_refl)|]. apply IH.
Qed.

Lemma kept_threshold_mono (T1 T2 : Z) line :
  (T1 <= T2)%Z -> kept (Some T2) line = true -> kept (Some T1) line = true.
Proof. simpl. rewrite !Z.leb_le. lia. Qed.

Lemma filter_narrower {A} (p q : A -> bool) (l : list A) :
  (forall x, q x = true -> p x = true) ->
  filter q (filter p l) = filter q l.
Proof.
  intros Himp. induction l as [|x l IH]; simpl; trivial.
  destruct (p x) eqn:Ep; simpl.
  - destruct (q x); now rewrite IH.
  - destruct (q x) eqn:Eq; trivial.
    rewrite (Himp x Eq) in Ep. discriminate.
Qed.

Lemma kept_masks_mono (T1 T2 : Z) (lines : list (list (option scalar))) :
  (T1 <= T2)%Z ->
  Forall2 (fun b1 b2 => b2 = true -> b1 = true)
          (map (kept (Some T1)) lines) (map (kept (Some T2)) lines).
Proof.
  intros HT. induction lines as [|r rs IH]; simpl; constructor; trivial.
  now apply kept_threshold_mono.
Qed.

Lemma dropna_rows_form thresh df :
  pd.dropna 0%Z thresh df
  = inr {| index := take (map (kept thresh) (map snd (iterrows df))) (index df);
           columns := map (series_take (map (kept thresh) (map snd (iterrows df))))
                          (columns df) |}.
Proof. unfold pd.dropna. simpl. now rewrite keep_mask_kept. Qed.

Lemma dropna_columns_form thresh df :
  pd.dropna 1%Z thresh df
  = inr {| index := index df;
           columns := filter (fun s => kept thresh (cells (data s))) (columns df) |}.
Proof.
  unfold pd.dropna. simpl. rewrite keep_mask_kept.
  now rewrite (take_compose_filter (fun s => cells (data s)) (kept thresh)).
Qed.

Lemma dropna_axis axis thresh df df' :
  pd.dropna axis thresh df = inr df' -> axis = 0%Z \/ axis = 1%Z.
Proof.
  unfold pd.dropna.
  destruct (Z.eqb_spec axis 0); [now left|].
  destruct (Z.eqb_spec axis 1); [now right|discriminate].
Qed.

Lemma dropna_threshold_compose axis (T1 T2 : Z) df df1 df2 :
  well_formed df -> (T1 <= T2)%Z ->
  pd.dropna axis (Some T1) df = inr df1 ->
  pd.dropna axis (Some T2) df = inr df2 ->
  pd.dropna axis (Some T2) df1 = inr df2.
Proof.
  intros [Hlen _] HT H1 H2.
  destruct (dropna_axis _ _ _ _ H1) as [-> | ->].
  - rewrite dropna_rows_form in H1, H2. rewrite dropna_rows_form.
    injection H1 as H1. injection H2 as H2. f_equal.
    set (m1 := map (kept (Some T1)) (map snd (iterrows df))) in *.
    set (m2 := map (kept (Some T2)) (map snd (iterrows df))) in *.
    assert (Hm : map (kept (Some T2)) (map snd (iterrows df1)) = take m1 m2).
    { rewrite <- H1.
      pose proof (iterrows_dropna_rows (Some T1) df Hlen) as Hr1.
      cbv zeta in Hr1. rewrite keep_mask_kept in Hr1. fold m1 in Hr1.
      rewrite Hr1. unfold m2. rewrite <- !take_map. reflexivity. }
    assert (Himp : Forall2 (fun b1 b2 => b2 = true -> b1 = true) m1 m2).
    { unfold m1, m2. now apply kept_masks_mono. }
    rewrite Hm. rewrite <- H1, <- H2. simpl. f_equal.
    + now apply take_take.
    + rewrite map_map. apply map_ext. intros [l [v|v]]; unfold series_take; simpl;
        now rewrite take_take.
  - rewrite dropna_columns_form in H1, H2. rewrite dropna_columns_form.
    injection H1 as H1. injection H2 as H2. f_equal.
    rewrite <- H1, <- H2. simpl columns. simpl index. f_equal.
    apply filter_narrower. intros c. now apply kept_threshold_mono.
Qed.

(** X15. Thresholds compose: on a well-formed dataset and one axis, dropping
    with threshold [T1] and then with a threshold [T2 >= T1] returns the same
    dataset as dropping with [T2] at once. *)
Theorem drop_thresholds_compose
        (axis T1 T2 : Z) (df df1 df2 : DataFrame) (log1 log2 : list record) :
  well_formed df ->
  (T1 <= T2)%Z ->
  handle (Drop (DropMissingValuesStrategy.init (Some axis) (Some T1))) df
  = (log1, inr df1) ->
  handle (Drop (DropMissingValuesStrategy.init (Some axis) (Some T2))) df
  = (log2, inr df2) ->
  handle (Drop (DropMissingValuesStrategy.init (Some axis) (Some T2))) df1
  = (log2, inr df2).
Proof.
  intros Hwf HT H1 H2.
  pose proof (drop_handle_result _ df log1 df1 H1) as Hd1.
  pose proof (drop_handle_result _ df log2 df2 H2) as Hd2.
  rewrite (drop_handle_log _ df df2 Hd2) in H2. injection H2 as <-.
  apply drop_handle_log. simpl in *.
  eapply dropna_threshold_compose; eauto.
Qed.

(** * The value chosen by the mode fill *)

Section SortHead.
Context {A : Type} (leb : A -> A -> bool).
Hypothesis leb_total : forall a b, leb a b = true \/ leb b a = true.
Hypothesis leb_trans : forall a b c, leb a b = true -> leb b c = true -> leb a c = true.

Lemma insert_head_least (x : A) (l : list A) :
  (forall h t, l = h :: t -> forall y, In y l -> leb h y = true) ->
  forall h t, pd.insert leb x l = h :: t ->
  forall y, In y (pd.insert leb x l) -> leb h y = true.
Proof.
  intros Hl h t Hins y Hy. apply in_insert in Hy.
  destruct l as [|h0 t0]; simpl in Hins.
  - injection Hins as <- <-. destruct Hy as [->|[]].
    destruct (leb_total x x); trivial.
  - specialize (Hl h0 t0 eq_refl).
    destruct (leb x h0) eqn:E; injection Hins as <- <-.
    + destruct Hy as [->|Hy].
      * destruct (leb_total x x); trivial.
      * eapply leb_trans; [exact E|]. now apply Hl.
    + destruct Hy as [->|Hy].
      * destruct (leb_total x h0) as [H|H]; [congruence|exact H].
      * now apply Hl.
Qed.

Lemma sort_head_least (l : list A) :
  forall h t, pd.sort leb l = h :: t -> forall y, In y l -> leb h y = true.
Proof.
  induction l as [|x l IH]; intros h t Hs y Hy; [contradiction|].
  simpl in Hs.
  apply (insert_head_least x (pd.sort leb l)) with (t := t); trivial.
  - intros h0 t0 E y0 Hy0. apply (IH h0 t0 E). now apply in_sort in Hy0.
  - change (In y (pd.sort leb (x :: l))). now apply in_sort.
Qed.
End SortHead.

Lemma Qle_bool_total a b : Qle_bool a b = true \/ Qle_bool b a = true.
Proof.
  rewrite !Qle_bool_iff. destruct (Qlt_le_dec a b) as [H|H]; [left|right]; trivial.
  now apply Qlt_le_weak.
Qed.

Lemma Qle_bool_trans a b c :
  Qle_bool a b = true -> Qle_bool b c = true -> Qle_bool a c = true.
Proof. rewrite !Qle_bool_iff. apply Qle_trans. Qed.

(** The first mode of a numeric column: a present value of highest frequency,
    and the least of those. *)
Lemma numeric_mode_least (v : list (option Q)) (q : Q) (ms : list scalar) :
  pd.mode (Number v) = Num q :: ms ->
  In (Some q) v
  /\ (forall x, In (Some x) v ->
                pd.count_of Qeq_bool x (pd.present v)
                <= pd.count_of Qeq_bool q (pd.present v))
  /\ (forall x, In (Some x) v ->
                pd.count_of Qeq_bool x (pd.present v)
                = pd.count_of Qeq_bool q (pd.present v) ->
                (q <= x)%Q).
Proof.
  simpl. intros Hm.
  destruct (pd.sort Qle_bool (pd.modes Qeq_bool (pd.present v))) as [|q0 t] eqn:Es;
    [discriminate|].
  simpl in Hm. injection Hm as -> _.
  assert (Hq : In q (pd.modes Qeq_bool (pd.present v))).
  { apply (in_sort Qle_bool). rewrite Es. now left. }
  split; [|split].
  - apply in_present. eapply modes_in; eauto.
  - intros x Hx. eapply modes_most_frequent; eauto. now apply in_present.
  - intros x Hx Hcount. apply in_present in Hx.
    destruct (unique_represents Qeq_bool Qeq_bool_refl Qeq_bool_trans x _ Hx)
      as (y & Hy & Hyx).
    assert (Hymode : In y (pd.modes Qeq_bool (pd.present v))).
    { unfold pd.modes in *. apply filter_In. split; trivial.
      apply filter_In in Hq. destruct Hq as [_ Hq].
      apply Nat.eqb_eq in Hq. apply Nat.eqb_eq. rewrite <- Hq, <- Hcount.
      eapply count_of_equiv; eauto using Qeq_bool_refl, Qeq_bool_sym, Qeq_bool_trans. }
    pose proof (sort_head_least Qle_bool Qle_bool_total Qle_bool_trans
                  _ q t Es y Hymode) as Hle.
    apply Qle_bool_iff in Hle. apply Qeq_bool_iff in Hyx.
    now rewrite <- Hyx.
Qed.

(** X16. Ties in the mode fill are broken towards the smallest value: when the
    mode fill returns on a well-formed dataset, every numeric column has its
    missing cells replaced by one present value [q] that no present value
    outnumbers and that is less than or equal to every present value occurring
    as often. *)
Theorem fill_mode_numeric_takes_least_mode
        (df df' : DataFrame) (log : list record) :
  well_formed df ->
  handle (Fill (FillMissingValuesStrategy.init (Some "mode") None)) df
  = (log, inr df') ->
  Forall2 (fun c c' =>
             forall v, data c = Number v ->
               exists q,
                 data c' = Number (map (pd.fill (Some q)) v)
                 /\ In (Some q) v
                 /\ (forall x, In (Some x) v ->
                               pd.count_of Qeq_bool x (pd.present v)
                               <= pd.count_of Qeq_bool q (pd.present v))
                 /\ (forall x, In (Some x) v ->
                               pd.count_of Qeq_bool x (pd.present v)
                               = pd.count_of Qeq_bool q (pd.present v) ->
                               (q <= x)%Q))
          (columns df) (columns df').
Proof.
  intros [_ Hnd] H.
  apply (handle_fill_result_iff "mode" None df Hnd) in H.
  destruct H as (_ & -> & Hmode & _). simpl columns.
  apply Forall2_map_r. intros c Hc v Hv.
  specialize (Hmode eq_refl c Hc).
  change (filled_column "mode" None c) with (fill_mode_column c).
  unfold fill_mode_column. rewrite Hv in *.
  destruct (pd.mode (Number v)) as [|m ms] eqn:Em; [congruence|].
  assert (Hnum : exists q, m = Num q).
  { simpl in Em. destruct (pd.sort Qle_bool _) as [|q0 t]; [discriminate|].
    simpl in Em. injection Em as <- _. eauto. }
  destruct Hnum as (q & ->). exists q. split; [reflexivity|].
  eapply numeric_mode_least; eauto.
Qed.

(** * Instances of the further properties on the sample data *)



Lemma drop_preserves_well_formed_witness :
  well_formed housing_sample
  /\ exists log df',
      handle (Drop (DropMissingValuesStrategy.init (Some 1%Z) (Some 2%Z)))
             housing_sample = (log, inr df')
      /\ well_formed df'.
Proof.
  split; [exact housing_sample_well_formed|].
  eexists. eexists. split; [reflexivity|].
  eapply (drop_preserves_well_formed
            (DropMissingValuesStrategy.init (Some 1%Z) (Some 2%Z)) housing_sample).
  - exact housing_sample_well_formed.
  - reflexivity.
Defined.

Lemma drop_idempotent_witness :
  well_formed housing_sample
  /\ exists log df1,
      handle (Drop (DropMissingValuesStrategy.init (Some 1%Z) (Some 2%Z)))
             housing_sample = (log, inr df1)
      /\ handle (Drop (DropMissingValuesStrategy.init (Some 1%Z) (Some 2%Z))) df1
         = (log, inr df1).
Proof.
  split; [exact housing_sample_well_formed|].
  eexists. eexists. split; [reflexivity|].
  eapply (drop_idempotent
            (DropMissingValuesStrategy.init (Some 1%Z) (Some 2%Z)) housing_sample).
  - exact housing_sample_well_formed.
  - reflexivity.
Defined.

Lemma identify_missing_values_lists_incomplete_columns_witness :
  well_formed housing_sample
  /\ exists counts,
      SimpleMissingValuesAnalysis.identify_missing_values housing_sample
      = [ Text (String "010"%char "Counts of Missing Values by Column:");
          Counts counts ]
      /\ (counts = [] <-> complete housing_sample).
Proof.
  split; [exact housing_sample_well_formed|].
  destruct (identify_missing_values_lists_incomplete_columns housing_sample
              housing_sample_well_formed) as (counts & H & _ & Hc).
  exists counts. split; assumption.
Defined.

Lemma drop_unchanged_for_nonpositive_threshold_witness :
  well_formed housing_sample
  /\ (0 <= 0)%Z
  /\ exists log,
      handle (Drop (DropMissingValuesStrategy.init (Some 0%Z) (Some 0%Z)))
             housing_sample = (log, inr housing_sample).
Proof.
  split; [exact housing_sample_well_formed|]. split; [lia|].
  apply (drop_unchanged_for_nonpositive_threshold
           (DropMissingValuesStrategy.init (Some 0%Z) (Some 0%Z)) housing_sample 0%Z).
  - exact housing_sample_well_formed.
  - now left.
  - reflexivity.
  - lia.
Defined.

Lemma fill_mode_raises_iff_column_without_value_witness :
  well_formed housing_sample
  /\ ((exists s, In s (columns housing_sample)
                 /\ forall x, ~ In (Some x) (cells (data s)))
      <-> handle (Fill (FillMissingValuesStrategy.init (Some "mode") None))
                 housing_sample
          = ([(INFO, "Filling missing values using method: mode")],
             inl (IndexError "single positional indexer is out-of-bounds"))).
Proof.
  split; [exact housing_sample_well_formed|].
  exact (proj1 (fill_mode_raises_iff_column_without_value housing_sample
                  housing_sample_well_formed)).
Defined.

Lemma fill_keeps_shape_and_present_cells_witness :
  well_formed housing_sample
  /\ exists log df',
      handle (Fill (FillMissingValuesStrategy.init (Some "mean") None)) housing_sample
      = (log, inr df')
      /\ index df' = index housing_sample
      /\ well_formed df'.
Proof.
  split; [exact housing_sample_well_formed|].
  eexists. eexists. split; [reflexivity|].
  destruct (fill_keeps_shape_and_present_cells
              (FillMissingValuesStrategy.init (Some "mean") None)
              housing_sample _ _ housing_sample_well_formed eq_refl)
    as (Hi & Hwf & _).
  split; assumption.
Defined.

Lemma fill_idempotent_witness :
  well_formed housing_sample
  /\ exists log df1,
      handle (Fill (FillMissingValuesStrategy.init (Some "median") None))
             housing_sample = (log, inr df1)
      /\ handle (Fill (FillMissingValuesStrategy.init (Some "median") None)) df1
         = (log, inr df1).
Proof.
  split; [exact housing_sample_well_formed|].
  eexists. eexists. split; [reflexivity|].
  eapply (fill_idempotent
            (FillMissingValuesStrategy.init (Some "median") None) housing_sample).
  - exact housing_sample_well_formed.
  - reflexivity.
Defined.


Lemma step_returns_for_drop_mean_median_witness :
  well_formed housing_sample
  /\ In "median" ["drop"; "mean"; "median"]
  /\ exists log df',
      handle_missing_values_step housing_sample "median" = (log, inr df')
      /\ labels df' = labels housing_sample
      /\ well_formed df'.
Proof.
  assert (Hin : In "median" ["drop"; "mean"; "median"]) by (simpl; tauto).
  split; [exact housing_sample_well_formed|]. split; [exact Hin|].
  exact (step_returns_for_drop_mean_median housing_sample "median"
           housing_sample_well_formed Hin).
Defined.

Lemma data_ingestion_step_success_inversion_witness :
  exists fs',
    data_ingestion_step (fun _ _ => inr housing_sample)
                        archive_sample "data/archive.zip"
    = (fs', inr housing_sample)
    /\ endswith "data/archive.zip" ".zip" = true
    /\ exists zip_ref extracted_files f,
        ZipFile archive_sample "data/archive.zip" = inr zip_ref
        /\ extractall zip_ref archive_sample = (fs', inr tt)
        /\ listdir fs' = inr extracted_files
        /\ filter (fun f => endswith f ".csv") extracted_files = [f]
        /\ inr housing_sample = (inr housing_sample : exn + DataFrame).
Proof.
  eexists. split; [reflexivity|].
  exact (proj2 (proj2 (data_ingestion_step_success_inversion
                         (fun _ _ => inr housing_sample)
                         archive_sample "data/archive.zip"))
               _ housing_sample eq_refl).
Defined.

Lemma zip_ingest_stale_csv_is_ambiguous_witness :
  exists fs',
    extractall ames_archive archive_sample_stale = (fs', inr tt)
    /\ listdir archive_sample_stale = inr ["train.csv"]
    /\ ZipDataIngestor_ingest (fun _ _ => inr housing_sample)
                              archive_sample_stale "data/archive.zip"
       = (fs',
          inl (ValueError
                 "Multiple CSV files found. Please specify which one to use.")).
Proof.
  eexists. split; [reflexivity|]. split; [reflexivity|].
  apply (zip_ingest_stale_csv_is_ambiguous
           (fun _ _ => inr housing_sample) archive_sample_stale _
           "data/archive.zip" ames_archive ["train.csv"] "train.csv"
           {| arcdirs := []; arcname := "AmesHousing.csv";
              content := Some "LotArea,Alley" |});
    try reflexivity; [now left|now left|discriminate].
Defined.

Lemma zip_ingest_empty_archive_without_staging_witness :
  ZipDataIngestor_ingest
    (fun _ _ => inr housing_sample)
    {| archives := [("data/empty.zip", Some [])]; extracted_data := None |}
    "data/empty.zip"
  = ({| archives := [("data/empty.zip", Some [])]; extracted_data := None |},
     inl (FileNotFoundError
            "[Errno 2] No such file or directory: 'extracted_data'")).
Proof.
  apply zip_ingest_empty_archive_without_staging; reflexivity.
Defined.


Lemma drop_thresholds_compose_witness :
  well_formed housing_sample
  /\ (1 <= 2)%Z
  /\ exists log1 df1 log2 df2,
      handle (Drop (DropMissingValuesStrategy.init (Some 1%Z) (Some 1%Z)))
             housing_sample = (log1, inr df1)
      /\ handle (Drop (DropMissingValuesStrategy.init (Some 1%Z) (Some 2%Z)))
                housing_sample = (log2, inr df2)
      /\ handle (Drop (DropMissingValuesStrategy.init (Some 1%Z) (Some 2%Z))) df1
         = (log2, inr df2).
Proof.
  split; [exact housing_sample_well_formed|]. split; [lia|].
  eexists. eexists. eexists. eexists.
  split; [reflexivity|]. split; [reflexivity|].
  eapply (drop_thresholds_compose 1%Z 1%Z 2%Z housing_sample).
  - exact housing_sample_well_formed.
  - lia.
  - reflexivity.
  - reflexivity.
Defined.

Lemma fill_mode_numeric_takes_least_mode_witness :
  well_formed housing_sample_no_empty_column
  /\ exists log df',
      handle (Fill (FillMissingValuesStrategy.init (Some "mode") None))
             housing_sample_no_empty_column = (log, inr df')
      /\ Forall2 (fun c c' =>
                    forall v, data c = Number v ->
                      exists q, data c' = Number (map (pd.fill (Some q)) v)
                                /\ In (Some q) v)
                 (columns housing_sample_no_empty_column) (columns df').
Proof.
  split; [exact housing_sample_no_empty_column_well_formed|].
  eexists. eexists. split; [reflexivity|].
  eapply Forall2_impl;
    [|exact (fill_mode_numeric_takes_least_mode
               housing_sample_no_empty_column _ _
               housing_sample_no_empty_column_well_formed eq_refl)].
  intros c c' H v Hv. destruct (H v Hv) as (q & Hd & Hin & _).
  exists q. split; assumption.
Defined.

(** * What the report shows after a mean fill *)

Lemma present_nil_no_value {A} (l : list (option A)) :
  pd.present l = [] <-> forall x, ~ In (Some x) l.
Proof.
  split.
  - intros H x Hx. apply in_present in Hx. now rewrite H in Hx.
  - intros H. destruct (pd.present l) as [|y p] eqn:E; trivial.
    exfalso. apply (H y). apply in_present. rewrite E. now left.
Qed.

Lemma no_value_option_map {A B} (f : A -> B) (l : list (option A)) :
  (forall x, ~ In (Some x) (map (option_map f) l)) <-> pd.present l = [].
Proof.
  rewrite <- present_nil_no_value, present_map. split.
  - apply map_eq_nil.
  - now intros ->.
Qed.

(** The missing cells of a column after the mean fill: none in a numeric
    column that has a value, as many as before in any other column. *)
Lemma missing_after_mean_fill (s : Series) :
  List.length (filter (fun c => negb (notna c))
                      (cells (data (fill_column pd.mean s))))
  = if is_number s && negb (forallb (fun c => negb (notna c)) (cells (data s)))
    then 0
    else List.length (filter (fun c => negb (notna c)) (cells (data s))).
Proof.
  unfold fill_column, is_number. destruct (data s) as [v|v] eqn:E; simpl.
  - unfold pd.mean. destruct (pd.present v) as [|y p] eqn:Ep.
    + rewrite fill_none.
      assert (Hall : forallb (fun c => negb (notna c)) (map (option_map Num) v)
                     = true).
      { apply forallb_forall. intros [x|] Hx; trivial.
        exfalso. revert Hx. now apply no_value_option_map. }
      now rewrite Hall.
    + assert (Hsome : forallb (fun c => negb (notna c)) (map (option_map Num) v)
                      = false).
      { destruct (forallb _ _) eqn:Hall; trivial.
        rewrite forallb_forall in Hall.
        assert (Hin : In (Some y) v) by (apply in_present; rewrite Ep; now left).
        specialize (Hall (Some (Num y))
                         (in_map (option_map Num) v (Some y) Hin)).
        discriminate. }
      rewrite Hsome. simpl. apply count_missing_zero.
      rewrite notna_option_map. apply fill_some_complete.
  - now rewrite E.
Qed.

(** X17. A mean fill of a well-formed dataset never adds a column to the
    missing-values report and never changes a reported count: whatever the
    report lists after the fill, it listed before with the same count. Every
    text column with missing cells and every numeric column without any value
    is still listed after the fill. *)
Theorem report_after_mean_fill (df : DataFrame) :
  well_formed df ->
  exists log df' before after,
    handle (Fill (FillMissingValuesStrategy.init (Some "mean") None)) df
    = (log, inr df')
    /\ SimpleMissingValuesAnalysis.identify_missing_values df
       = [ Text (String "010"%char "Counts of Missing Values by Column:");
           Counts before ]
    /\ SimpleMissingValuesAnalysis.identify_missing_values df'
       = [ Text (String "010"%char "Counts of Missing Values by Column:");
           Counts after ]
    /\ (forall k n, In (k, n) after -> In (k, n) before)
    /\ (forall s,
           In s (columns df) ->
           is_number s = false \/ (forall x, ~ In (Some x) (cells (data s))) ->
           1 <= List.length (filter (fun c => negb (notna c)) (cells (data s))) ->
           In (label s,
               List.length (filter (fun c => negb (notna c)) (cells (data s))))
              after).
Proof.
  intros [_ Hnd]. do 4 eexists.
  split; [apply (handle_fill_mean df Hnd)|].
  split; [reflexivity|]. split; [reflexivity|].
  unfold isnull_sum. simpl columns. split.
  - intros k n. rewrite !filter_In, !in_map_iff. simpl snd.
    intros [(s' & Heq & Hs') Hpos]. apply Nat.ltb_lt in Hpos.
    apply in_map_iff in Hs'. destruct Hs' as (s & <- & Hs).
    injection Heq as <- <-. rewrite fill_column_label.
    rewrite missing_after_mean_fill in *.
    destruct (is_number s
              && negb (forallb (fun c => negb (notna c)) (cells (data s))));
      [lia|].
    split.
    + exists s. now split.
    + now apply Nat.ltb_lt.
  - intros s Hs Hwhy Hpos.
    assert (Hsame : List.length (filter (fun c => negb (notna c))
                                        (cells (data (fill_column pd.mean s))))
                    = List.length (filter (fun c => negb (notna c))
                                          (cells (data s)))).
    { rewrite missing_after_mean_fill. destruct Hwhy as [->|Hnone]; trivial.
      assert (Hall : forallb (fun c => negb (notna c)) (cells (data s)) = true).
      { apply forallb_forall. intros [x|] Hx; trivial.
        exfalso. now apply (Hnone x). }
      rewrite Hall. now rewrite andb_false_r. }
    apply filter_In. split.
    + apply in_map_iff. exists (fill_column pd.mean s). split.
      * now rewrite fill_column_label, Hsame.
      * now apply in_map.
    + apply Nat.ltb_lt. simpl. lia.
Qed.

Lemma report_after_mean_fill_witness :
  well_formed housing_sample
  /\ exists log df' before after,
      handle (Fill (FillMissingValuesStrategy.init (Some "mean") None)) housing_sample
      = (log, inr df')
      /\ SimpleMissingValuesAnalysis.identify_missing_values housing_sample
         = [ Text (String "010"%char "Counts of Missing Values by Column:");
             Counts before ]
      /\ SimpleMissingValuesAnalysis.identify_missing_values df'
         = [ Text (String "010"%char "Counts of Missing Values by Column:");
             Counts after ]
      /\ (forall k n, In (k, n) after -> In (k, n) before).
Proof.
  split; [exact housing_sample_well_formed|].
  destruct (report_after_mean_fill housing_sample housing_sample_well_formed)
    as (log & df' & before & after & H & Hb & Ha & Hsub & _).
  exists log, df', before, after. repeat split; assumption.
Defined.
